(** * Notice board core: lifecycle state machine, audience targeting, scheduler

    A shallow embedding of the three core services of the notice board
    backend and the properties established about them:

    - [Lifecycle]: [NoticeStateMachine] (enums, transition table, guards,
      [transition], [validateFSM]);
    - [Targeting]: [AudienceTargetingService] ([registerUser],
      [findEligibleUsers], the seen-notices Bloom filter);
    - [Scheduler]: [NoticeScheduler] (binary heap dispatch queue, timing
      wheel, periodic scan, display buffers).

    Conventions.  A JavaScript [Date] is its millisecond time stamp in [Z].
    A [Map] whose iteration order is observable is an insertion-ordered
    association list ([JsMap]); a [Map] that is only ever looked up by key is
    a [gmap].  Calls to the clock ([Date.now()], [new Date()]) and to the
    random generator become explicit arguments.  A function that can [throw]
    returns an [Outcome]. *)

From Stdlib Require Import ZArith String List Lia ZifyNat.
From stdpp Require Import base option list gmap strings fin_maps sorting.

Local Open Scope Z_scope.
Local Open Scope string_scope.

(** ** JavaScript [Map] with observable insertion order *)

Module JsMap.
Section Defs.
Context {K V : Type} `{EqDecision K}.

Definition t : Type := list (K * V).

Definition empty : t := [].

Fixpoint get (m : t) (k : K) : option V :=
  match m with
  | [] => None
  | (k', v) :: m' => if decide (k' = k) then Some v else get m' k
  end.

Definition has (m : t) (k : K) : bool := bool_decide (is_Some (get m k)).

(** [Map.prototype.set]: an existing key keeps its position, a new key
    goes last. *)
Fixpoint set (m : t) (k : K) (v : V) : t :=
  match m with
  | [] => [(k, v)]
  | (k', v') :: m' =>
      if decide (k' = k) then (k', v) :: m' else (k', v') :: set m' k v
  end.

Fixpoint delete (m : t) (k : K) : t :=
  match m with
  | [] => []
  | (k', v') :: m' =>
      if decide (k' = k) then m' else (k', v') :: delete m' k
  end.

Definition size (m : t) : nat := length m.
End Defs.
Arguments t : clear implicits.
End JsMap.

(** ** Results of functions that may throw *)

Inductive Outcome (A : Type) : Type :=
| Returned (a : A)
| Threw (msg : string).
Arguments Returned {A} a.
Arguments Threw {A} msg.

(** ** Lifecycle state machine ([NoticeStateMachine]) *)

Module Lifecycle.

Inductive NoticeState : Type :=
| DRAFT | SUBMITTED | MODERATION_PENDING | APPROVED | REJECTED
| SCHEDULED | ACTIVE | EXPIRED | ARCHIVED | REINSTATED.

Inductive NoticeEvent : Type :=
| SUBMIT | APPROVE | REJECT | SCHEDULE | ACTIVATE
| EXPIRE | ARCHIVE | REINSTATE | UPDATE.

#[global] Instance NoticeState_eq_dec : EqDecision NoticeState.
Proof. solve_decision. Defined.

#[global] Instance NoticeEvent_eq_dec : EqDecision NoticeEvent.
Proof. solve_decision. Defined.

(** The string value of each enum member. *)
Definition state_str (s : NoticeState) : string :=
  match s with
  | DRAFT => "draft" | SUBMITTED => "submitted"
  | MODERATION_PENDING => "moderation_pending"
  | APPROVED => "approved" | REJECTED => "rejected"
  | SCHEDULED => "scheduled" | ACTIVE => "active"
  | EXPIRED => "expired" | ARCHIVED => "archived"
  | REINSTATED => "reinstated"
  end.

Definition event_str (e : NoticeEvent) : string :=
  match e with
  | SUBMIT => "submit" | APPROVE => "approve" | REJECT => "reject"
  | SCHEDULE => "schedule" | ACTIVATE => "activate" | EXPIRE => "expire"
  | ARCHIVE => "archive" | REINSTATE => "reinstate" | UPDATE => "update"
  end.

(** [Object.values(NoticeState)]: the members in declaration order. *)
Definition all_states : list NoticeState :=
  [DRAFT; SUBMITTED; MODERATION_PENDING; APPROVED; REJECTED;
   SCHEDULED; ACTIVE; EXPIRED; ARCHIVED; REINSTATED].

(** [enum UserRole]. *)
Module UserRole.
Definition ADMIN : string := "admin".
Definition MODERATOR : string := "moderator".
Definition PUBLISHER : string := "publisher".
Definition USER : string := "user".
End UserRole.

(** [metadata?: any]: the only field the machine reads is [scheduledTime],
    which callers set to a [Date]. *)
Record Metadata : Type := mkMetadata {
  scheduledTime : option Z
}.

Record TransitionInput : Type := mkInput {
  event : NoticeEvent;
  timestamp : Z;
  userId : string;
  userRole : string;
  metadata : option Metadata
}.

Record StateTransition : Type := mkTransition {
  t_id : string;
  t_noticeId : string;
  fromState : NoticeState;
  toState : NoticeState;
  t_event : NoticeEvent;
  t_timestamp : Z;
  t_userId : string;
  t_userRole : string;
  t_metadata : option Metadata;
  isValid : bool;
  reason : option string
}.

Record NoticeContext : Type := mkContext {
  c_id : string;
  currentState : NoticeState;
  createdAt : Z;
  visibleFrom : option Z;
  visibleUntil : option Z;
  priority : Z;
  authorId : string;
  lastModifiedAt : Z
}.

Abbreviation TransitionTable :=
  (JsMap.t NoticeState (JsMap.t NoticeEvent NoticeState)).

(** The fields of the class. *)
Record FSM : Type := mkFSM {
  transitionTable : TransitionTable;
  stateLog : list StateTransition;
  noticeStates : gmap string NoticeState;
  noticeContexts : gmap string NoticeContext
}.

Definition addTransition (tbl : TransitionTable)
    (fromS : NoticeState) (ev : NoticeEvent) (toS : NoticeState)
  : TransitionTable :=
  let tbl1 := if JsMap.has tbl fromS then tbl
              else JsMap.set tbl fromS JsMap.empty in
  match JsMap.get tbl1 fromS with
  | Some row => JsMap.set tbl1 fromS (JsMap.set row ev toS)
  | None => tbl1
  end.

Definition initializeTransitionTable : TransitionTable :=
  let add '(f, e, t) tbl := addTransition tbl f e t in
  foldl (fun tbl x => add x tbl) JsMap.empty
    [ (DRAFT, SUBMIT, SUBMITTED);
      (DRAFT, UPDATE, DRAFT);
      (DRAFT, ARCHIVE, ARCHIVED);
      (SUBMITTED, APPROVE, MODERATION_PENDING);
      (SUBMITTED, REJECT, REJECTED);
      (SUBMITTED, UPDATE, DRAFT);
      (MODERATION_PENDING, APPROVE, APPROVED);
      (MODERATION_PENDING, REJECT, REJECTED);
      (APPROVED, SCHEDULE, SCHEDULED);
      (APPROVED, ACTIVATE, ACTIVE);
      (APPROVED, REJECT, REJECTED);
      (SCHEDULED, ACTIVATE, ACTIVE);
      (SCHEDULED, REJECT, REJECTED);
      (ACTIVE, EXPIRE, EXPIRED);
      (ACTIVE, ARCHIVE, ARCHIVED);
      (EXPIRED, ARCHIVE, ARCHIVED);
      (EXPIRED, REINSTATE, REINSTATED);
      (ARCHIVED, REINSTATE, REINSTATED);
      (REINSTATED, APPROVE, APPROVED);
      (REINSTATED, ARCHIVE, ARCHIVED);
      (REJECTED, REINSTATE, REINSTATED) ].

(** [new NoticeStateMachine()]. *)
Definition constructor : FSM :=
  {| transitionTable := initializeTransitionTable;
     stateLog := [];
     noticeStates := ∅;
     noticeContexts := ∅ |}.

Definition logTransition (st : FSM) (t : StateTransition) : FSM :=
  {| transitionTable := transitionTable st;
     stateLog := (stateLog st ++ [t])%list;
     noticeStates := noticeStates st;
     noticeContexts := noticeContexts st |}.

(** [initializeNotice]; [tid] is the generated transition id and [now] the
    clock reading. *)
Definition initializeNotice (st : FSM) (noticeId : string)
    (context : NoticeContext) (tid : string) (now : Z) : FSM :=
  logTransition
    {| transitionTable := transitionTable st;
       stateLog := stateLog st;
       noticeStates := <[noticeId := DRAFT]> (noticeStates st);
       noticeContexts := <[noticeId := context]> (noticeContexts st) |}
    {| t_id := tid; t_noticeId := noticeId;
       fromState := DRAFT; toState := DRAFT; t_event := UPDATE;
       t_timestamp := now; t_userId := "system"; t_userRole := "system";
       t_metadata := None; isValid := true;
       reason := Some "Initial state" |}.

Definition getNextState (tbl : TransitionTable)
    (cur : NoticeState) (ev : NoticeEvent) : option NoticeState :=
  match JsMap.get tbl cur with
  | None => None
  | Some stateTransitions => JsMap.get stateTransitions ev
  end.

Record GuardResult : Type := mkGuard {
  allowed : bool;
  g_reason : option string
}.

Definition deny (msg : string) : GuardResult :=
  {| allowed := false; g_reason := Some msg |}.

Definition msPerDay : Z := 1000 * 60 * 60 * 24.

(** [evaluateGuards].  [daysSinceArchived > 30] compares the quotient of the
    elapsed milliseconds by [msPerDay] with 30; on integers that is
    [30 * msPerDay < elapsed]. *)
Definition evaluateGuards (fromS toS : NoticeState)
    (input : TransitionInput) (context : NoticeContext) : GuardResult :=
  let ev := event input in
  let role := userRole input in
  let ts := timestamp input in
  let roleCheck : option GuardResult :=
    match ev with
    | APPROVE =>
        if bool_decide (role ≠ UserRole.MODERATOR)
           && bool_decide (role ≠ UserRole.ADMIN)
        then Some (deny "Only moderators can approve notices") else None
    | REJECT =>
        if bool_decide (role ≠ UserRole.MODERATOR)
           && bool_decide (role ≠ UserRole.ADMIN)
        then Some (deny "Only moderators can reject notices") else None
    | REINSTATE =>
        if bool_decide (role ≠ UserRole.ADMIN)
        then Some (deny "Only admins can reinstate notices") else None
    | SUBMIT =>
        if bool_decide (role = UserRole.USER)
        then Some (deny "Users cannot submit notices directly") else None
    | _ => None
    end in
  match roleCheck with
  | Some r => r
  | None =>
    if bool_decide (ev = ACTIVATE)
       && match visibleFrom context with
          | Some vf => bool_decide (ts < vf)
          | None => false
          end
    then deny "Cannot activate before visible_from time"
    else if bool_decide (ev = EXPIRE)
       && match visibleUntil context with
          | Some vu => bool_decide (ts < vu)
          | None => false
          end
    then deny "Cannot expire before visible_until time"
    else if bool_decide (fromS = ARCHIVED) && bool_decide (toS = REINSTATED)
            && bool_decide (30 * msPerDay < ts - lastModifiedAt context)
            && bool_decide (role ≠ UserRole.ADMIN)
    then deny "Cannot reinstate notices archived for more than 30 days without admin privileges"
    else {| allowed := true; g_reason := None |}
  end.

Definition updateContextAfterTransition (context : NoticeContext)
    (newState : NoticeState) (input : TransitionInput) : NoticeContext :=
  let scheduled :=
    match newState, metadata input with
    | SCHEDULED, Some md => scheduledTime md
    | _, _ => None
    end in
  {| c_id := c_id context;
     currentState := newState;
     createdAt := createdAt context;
     visibleFrom := match scheduled with
                    | Some t => Some t
                    | None => visibleFrom context
                    end;
     visibleUntil := visibleUntil context;
     priority := priority context;
     authorId := authorId context;
     lastModifiedAt := timestamp input |}.

Definition rejected (tid noticeId : string) (cur : NoticeState)
    (input : TransitionInput) (why : option string) : StateTransition :=
  {| t_id := tid; t_noticeId := noticeId;
     fromState := cur; toState := cur; t_event := event input;
     t_timestamp := timestamp input; t_userId := userId input;
     t_userRole := userRole input; t_metadata := metadata input;
     isValid := false; reason := why |}.

(** [transition]; [tid] is the value of [generateTransitionId()]. *)
Definition transition (st : FSM) (noticeId tid : string)
    (input : TransitionInput) : Outcome (StateTransition * FSM) :=
  match noticeStates st !! noticeId with
  | None => Threw ("Notice " +:+ noticeId +:+ " not found")
  | Some cur =>
    match noticeContexts st !! noticeId with
    | None => Threw ("Notice context " +:+ noticeId +:+ " not found")
    | Some context =>
      match getNextState (transitionTable st) cur (event input) with
      | None =>
          let t := rejected tid noticeId cur input
                     (Some ("Invalid transition from " +:+ state_str cur
                            +:+ " with event " +:+ event_str (event input))) in
          Returned (t, logTransition st t)
      | Some newState =>
          let guardResult := evaluateGuards cur newState input context in
          if allowed guardResult then
            let t := {| t_id := tid; t_noticeId := noticeId;
                        fromState := cur; toState := newState;
                        t_event := event input;
                        t_timestamp := timestamp input;
                        t_userId := userId input;
                        t_userRole := userRole input;
                        t_metadata := metadata input;
                        isValid := true; reason := None |} in
            let st1 :=
              {| transitionTable := transitionTable st;
                 stateLog := stateLog st;
                 noticeStates := <[noticeId := newState]> (noticeStates st);
                 noticeContexts :=
                   <[noticeId :=
                       updateContextAfterTransition context newState input]>
                     (noticeContexts st) |} in
            Returned (t, logTransition st1 t)
          else
            let t := rejected tid noticeId cur input (g_reason guardResult) in
            Returned (t, logTransition st t)
      end
    end
  end.

Definition getCurrentState (st : FSM) (noticeId : string)
  : option NoticeState := noticeStates st !! noticeId.

(** *** [validateFSM] *)

Record Validation : Type := mkValidation {
  v_isValid : bool;
  issues : list string
}.

(** First loop: states without outgoing transitions. *)
Definition deadEndIssues (tbl : TransitionTable) : list string :=
  foldl (fun issues s =>
           let dead := match JsMap.get tbl s with
                       | None => true
                       | Some row => bool_decide (JsMap.size row = 0%nat)
                       end in
           if dead && bool_decide (s ≠ ARCHIVED) && bool_decide (s ≠ REJECTED)
           then (issues ++ ["State " +:+ state_str s
                            +:+ " has no outgoing transitions"])%list
           else issues)
        [] all_states.

(** One execution of the body of the [while (changed)] loop: a pass over
    the table in insertion order, the reachable set growing as it goes. *)
Definition reachPass (tbl : TransitionTable)
    (reachable : list NoticeState) : list NoticeState * bool :=
  foldl (fun '(reach, changed) '(fromS, row) =>
           if bool_decide (fromS ∈ reach) then
             foldl (fun '(reach, changed) '(_, toS) =>
                      if bool_decide (toS ∈ reach) then (reach, changed)
                      else ((reach ++ [toS])%list, true))
                   (reach, changed) (row : JsMap.t NoticeEvent NoticeState)
           else (reach, changed))
        (reachable, false) tbl.

(** The [while (changed)] loop, with a bound on the number of passes. *)
Fixpoint reachLoop (fuel : nat) (tbl : TransitionTable)
    (reachable : list NoticeState) : option (list NoticeState) :=
  match fuel with
  | O => None
  | S fuel' =>
      let '(reach, changed) := reachPass tbl reachable in
      if changed then reachLoop fuel' tbl reach else Some reach
  end.

Definition unreachableIssues (reachable : list NoticeState) : list string :=
  foldl (fun issues s =>
           if bool_decide (s ∈ reachable) then issues
           else (issues ++ ["State " +:+ state_str s
                            +:+ " is unreachable"])%list)
        [] all_states.

(** [validateFSM]: every pass that sets [changed] adds a state, so
    [length all_states] passes and a last one that changes nothing are
    enough; [None] would mean the bound was hit. *)
Definition validateFSM (st : FSM) : option Validation :=
  let tbl := transitionTable st in
  let issues1 := deadEndIssues tbl in
  match reachLoop (S (length all_states)) tbl [DRAFT] with
  | None => None
  | Some reachable =>
      let issues2 := (issues1 ++ unreachableIssues reachable)%list in
      Some {| v_isValid := bool_decide (length issues2 = 0%nat);
              issues := issues2 |}
  end.

(** *** Queries *)

(** [canTransition]; [now] is the clock reading that becomes the time
    stamp of the trial input. *)
Definition canTransition (st : FSM) (noticeId : string) (ev : NoticeEvent)
    (role : string) (now : Z) : bool :=
  match noticeStates st !! noticeId with
  | None => false
  | Some cur =>
    match getNextState (transitionTable st) cur ev with
    | None => false
    | Some newState =>
      match noticeContexts st !! noticeId with
      | None => false
      | Some context =>
          allowed (evaluateGuards cur newState
                     {| event := ev; timestamp := now; userId := "check";
                        userRole := role; metadata := None |} context)
      end
    end
  end.

(** [getValidTransitions]: the events of the row of the current state, in
    the order of the row, that [canTransition] accepts. *)
Definition getValidTransitions (st : FSM) (noticeId role : string) (now : Z)
  : list NoticeEvent :=
  match noticeStates st !! noticeId with
  | None => []
  | Some cur =>
    match JsMap.get (transitionTable st) cur with
    | None => []
    | Some stateTransitions =>
        foldl (fun validEvents '(ev, _) =>
                 if canTransition st noticeId ev role now
                 then (validEvents ++ [ev])%list else validEvents)
              [] (stateTransitions : JsMap.t NoticeEvent NoticeState)
    end
  end.

Definition getTransitionHistory (st : FSM) (noticeId : string)
  : list StateTransition :=
  filter (fun t => t_noticeId t = noticeId) (stateLog st).

Definition getTransitionCount (st : FSM) : nat := length (stateLog st).

End Lifecycle.

(** ** Audience targeting ([AudienceTargetingService]) *)

(** Modelled from the spec: the [BloomFilter] class of the [bloom-filters]
    package, which the service instantiates but which is not part of the
    sources.  It is a bit array of [size] cells and [nbHashes] hash
    functions; [add] sets the cell of every hash of the element, [has] tests
    that all of them are set.  The hash family itself is a parameter. *)
Module Bloom.

Record BloomFilter : Type := mkBloom {
  size : nat;
  nbHashes : nat;
  filter : list bool
}.

(** [new BloomFilter(size, nbHashes)]. *)
Definition create (sz k : nat) : BloomFilter :=
  {| size := sz; nbHashes := k; filter := replicate sz false |}.

Section Hashed.
(** [hashAt i element]: the value of the [i]-th hash function. *)
Variable hashAt : nat -> string -> nat.

Definition getIndexes (bf : BloomFilter) (element : string) : list nat :=
  (fun i => (hashAt i element mod size bf)%nat) <$> seq 0 (nbHashes bf).

Definition add (bf : BloomFilter) (element : string) : BloomFilter :=
  {| size := size bf; nbHashes := nbHashes bf;
     filter := foldl (fun bits i => <[i := true]> bits)
                     (filter bf) (getIndexes bf element) |}.

Definition has (bf : BloomFilter) (element : string) : bool :=
  forallb (fun i => bool_decide (filter bf !! i = Some true))
          (getIndexes bf element).
End Hashed.

End Bloom.

Module Targeting.

Record UserAttributes : Type := mkUser {
  userId : string;
  role : string;
  department : string;
  location : string;
  language : string;
  deviceCapabilities : list string;
  tags : list string
}.

Record AudienceRule : Type := mkRule {
  r_id : string;
  expression : string;
  topics : list string;
  departments : list string;
  roles : list string;
  locations : list string;
  r_tags : list string
}.

(** A [RoaringBitmap32] is the finite set of the numbers it holds; [or] is
    union in place, [and] intersection in place, and [forEach] visits the
    members in increasing order. *)
Abbreviation Bitmap := (gset nat).

Definition bitmap_forEach (b : Bitmap) : list nat :=
  merge_sort Nat.le (elements b).

(** The fields of the class that registration, eligibility and the seen
    check use. *)
Record Service : Type := mkService {
  userAttributes : gmap string UserAttributes;
  invertedIndex : gmap string (gset string);
  departmentBitmaps : gmap string Bitmap;
  roleBitmaps : gmap string Bitmap;
  locationBitmaps : gmap string Bitmap;
  seenNoticesBloom : Bloom.BloomFilter;
  userIdToNumber : gmap string nat;
  numberToUserId : gmap nat string;
  nextUserId : nat
}.

Definition constructor : Service :=
  {| userAttributes := ∅; invertedIndex := ∅;
     departmentBitmaps := ∅; roleBitmaps := ∅; locationBitmaps := ∅;
     seenNoticesBloom := Bloom.create 10000 4;
     userIdToNumber := ∅; numberToUserId := ∅; nextUserId := 1 |}.

(** [ensureBitmap] followed by [get(key)!.add(n)]. *)
Definition bitmapAdd (m : gmap string Bitmap) (key : string) (n : nat)
  : gmap string Bitmap :=
  let m1 := match m !! key with
            | Some _ => m
            | None => <[key := ∅]> m
            end in
  match m1 !! key with
  | Some b => <[key := {[n]} ∪ b]> m1
  | None => m1
  end.

(** [ensureInvertedIndex] followed by [get(tag)!.add(userId)]. *)
Definition indexAdd (m : gmap string (gset string)) (tag uid : string)
  : gmap string (gset string) :=
  let m1 := match m !! tag with
            | Some _ => m
            | None => <[tag := ∅]> m
            end in
  match m1 !! tag with
  | Some s => <[tag := {[uid]} ∪ s]> m1
  | None => m1
  end.

(** [registerUser].  After the numeric id has been assigned the lookup
    [userIdToNumber.get(userId)!] always succeeds; the [None] branch below
    is never taken ([registerUser_assigns]). *)
Definition registerUser (sv : Service) (u : UserAttributes) : Service :=
  let uid := userId u in
  let '(toNum, toId, next) :=
    match userIdToNumber sv !! uid with
    | Some _ => (userIdToNumber sv, numberToUserId sv, nextUserId sv)
    | None => (<[uid := nextUserId sv]> (userIdToNumber sv),
               <[nextUserId sv := uid]> (numberToUserId sv),
               S (nextUserId sv))
    end in
  match toNum !! uid with
  | None => sv
  | Some numericId =>
    {| userAttributes := <[uid := u]> (userAttributes sv);
       invertedIndex :=
         foldl (fun idx tag => indexAdd idx tag uid)
               (invertedIndex sv) (tags u);
       departmentBitmaps :=
         bitmapAdd (departmentBitmaps sv) (department u) numericId;
       roleBitmaps := bitmapAdd (roleBitmaps sv) (role u) numericId;
       locationBitmaps :=
         bitmapAdd (locationBitmaps sv) (location u) numericId;
       seenNoticesBloom := seenNoticesBloom sv;
       userIdToNumber := toNum;
       numberToUserId := toId;
       nextUserId := next |}
  end.

(** A fresh bitmap into which the bitmap of every listed value is or-ed. *)
Definition unionOf (m : gmap string Bitmap) (values : list string) : Bitmap :=
  foldl (fun acc v => match m !! v with
                      | Some b => acc ∪ b
                      | None => acc
                      end) ∅ values.

Definition nonEmpty {A} (l : list A) : bool :=
  negb (bool_decide (length l = 0%nat)).

(** The bitmap part of [findEligibleUsers]. *)
Definition eligibleBitmap (sv : Service) (rule : AudienceRule) : Bitmap :=
  if negb (nonEmpty (departments rule)) && negb (nonEmpty (roles rule))
     && negb (nonEmpty (locations rule))
  then list_to_set ((map_to_list (userIdToNumber sv)).*2)
  else
    let e0 : Bitmap := ∅ in
    let e1 := if nonEmpty (departments rule)
              then unionOf (departmentBitmaps sv) (departments rule)
              else e0 in
    let e2 := if nonEmpty (roles rule) then
                let roleUnion := unionOf (roleBitmaps sv) (roles rule) in
                if bool_decide (size e1 = 0%nat) then roleUnion
                else e1 ∩ roleUnion
              else e1 in
    let e3 := if nonEmpty (locations rule) then
                let locationUnion :=
                  unionOf (locationBitmaps sv) (locations rule) in
                if bool_decide (size e2 = 0%nat) then locationUnion
                else e2 ∩ locationUnion
              else e2 in
    e3.

(** A string is truthy when it is not empty. *)
Definition truthy (s : string) : bool := negb (bool_decide (s = "")).

Definition findEligibleUsers (sv : Service) (rule : AudienceRule)
  : list string :=
  let eligible := eligibleBitmap sv rule in
  if nonEmpty (r_tags rule) then
    let tagEligibleUsers : gset string :=
      foldl (fun acc tag => match invertedIndex sv !! tag with
                            | Some users => acc ∪ users
                            | None => acc
                            end) ∅ (r_tags rule) in
    foldl (fun filteredResults numericId =>
             match numberToUserId sv !! numericId with
             | Some uid =>
                 if truthy uid && bool_decide (uid ∈ tagEligibleUsers)
                 then (filteredResults ++ [uid])%list else filteredResults
             | None => filteredResults
             end) [] (bitmap_forEach eligible)
  else
    foldl (fun results numericId =>
             match numberToUserId sv !! numericId with
             | Some uid =>
                 if truthy uid then (results ++ [uid])%list else results
             | None => results
             end) [] (bitmap_forEach eligible).

Section Seen.
Variable hashAt : nat -> string -> nat.

Definition seenKey (uid noticeId : string) : string :=
  uid +:+ ":" +:+ noticeId.

Definition hasUserSeenNotice (sv : Service) (uid noticeId : string) : bool :=
  Bloom.has hashAt (seenNoticesBloom sv) (seenKey uid noticeId).

Definition markNoticeSeen (sv : Service) (uid noticeId : string) : Service :=
  {| userAttributes := userAttributes sv;
     invertedIndex := invertedIndex sv;
     departmentBitmaps := departmentBitmaps sv;
     roleBitmaps := roleBitmaps sv;
     locationBitmaps := locationBitmaps sv;
     seenNoticesBloom :=
       Bloom.add hashAt (seenNoticesBloom sv) (seenKey uid noticeId);
     userIdToNumber := userIdToNumber sv;
     numberToUserId := numberToUserId sv;
     nextUserId := nextUserId sv |}.
End Seen.

End Targeting.

(** ** Priority scheduler ([NoticeScheduler]) *)

Module Scheduler.

Inductive NoticePriority : Type :=
| EMERGENCY | URGENT | HIGH | NORMAL | LOW.

#[global] Instance NoticePriority_eq_dec : EqDecision NoticePriority.
Proof. solve_decision. Defined.

(** The numeric value of each member of the enum. *)
Definition ord (p : NoticePriority) : Z :=
  match p with
  | EMERGENCY => 0 | URGENT => 1 | HIGH => 2 | NORMAL => 3 | LOW => 4
  end.

Record ScheduledNotice : Type := mkNotice {
  noticeId : string;
  title : string;
  content : string;
  priority : NoticePriority;
  visibleFrom : Z;
  visibleUntil : Z;
  targetAudience : list string;
  channels : list string;
  createdAt : Z;
  retryCount : Z;
  maxRetries : Z
}.

Inductive DeliveryStatus : Type := pending | delivered | failed | expired.

Record DeliveryCheckpoint : Type := mkCheckpoint {
  targetId : string;
  noticeVersionId : string;
  status : DeliveryStatus;
  lastAttemptAt : Z;
  attempts : Z;
  nextRetryAt : option Z
}.

Record TimeInterval : Type := mkInterval {
  i_start : Z;
  i_end : Z;
  i_noticeId : string;
  isBlackout : bool
}.

Abbreviation Queue := (list ScheduledNotice).

(** The fields of the class (the cron handles apart). *)
Record Sched : Type := mkSched {
  dispatchQueue : Queue;
  activeNotices : gmap string ScheduledNotice;
  deliveryCheckpoints : gmap string (list DeliveryCheckpoint);
  timeIntervals : list TimeInterval;
  displayBuffers : gmap string (list ScheduledNotice);
  bufferSize : nat;
  timerWheel : gmap Z (list ScheduledNotice);
  currentTick : Z
}.

Definition constructor : Sched :=
  {| dispatchQueue := []; activeNotices := ∅; deliveryCheckpoints := ∅;
     timeIntervals := []; displayBuffers := ∅; bufferSize := 100;
     timerWheel := ∅; currentTick := 0 |}.

Definition with_queue (st : Sched) (q : Queue) : Sched :=
  {| dispatchQueue := q; activeNotices := activeNotices st;
     deliveryCheckpoints := deliveryCheckpoints st;
     timeIntervals := timeIntervals st;
     displayBuffers := displayBuffers st; bufferSize := bufferSize st;
     timerWheel := timerWheel st; currentTick := currentTick st |}.

(** *** Binary heap operations on the dispatch queue *)

Definition comparePriority (a b : ScheduledNotice) : Z :=
  if bool_decide (priority a ≠ priority b)
  then ord (priority a) - ord (priority b)
  else visibleFrom a - visibleFrom b.

(** [heapifyUp]: the recursion goes from [index] to its parent, so [index]
    itself bounds the number of calls ([heapifyUp_unfold] below gives the
    equation of the source). *)
Fixpoint heapifyUp_rec (fuel : nat) (q : Queue) (index : nat) : Queue :=
  match fuel with
  | O => q
  | S fuel' =>
    if bool_decide (index = 0%nat) then q
    else
      let parentIndex := ((index - 1) / 2)%nat in
      match q !! index, q !! parentIndex with
      | Some current, Some parent =>
          if bool_decide (comparePriority current parent < 0)
          then heapifyUp_rec fuel'
                 (<[parentIndex := current]> (<[index := parent]> q))
                 parentIndex
          else q
      | _, _ => q
      end
  end.

Definition heapifyUp (q : Queue) (index : nat) : Queue :=
  heapifyUp_rec index q index.

(** The index [smallest] that [heapifyDown] computes. *)
Definition smallestOf (q : Queue) (index : nat) : nat :=
  let leftChild := (2 * index + 1)%nat in
  let rightChild := (2 * index + 2)%nat in
  let smallest := index in
  let smallest :=
    match q !! leftChild, q !! smallest with
    | Some l, Some s =>
        if bool_decide (comparePriority l s < 0) then leftChild else smallest
    | _, _ => smallest
    end in
  match q !! rightChild, q !! smallest with
  | Some r, Some s =>
      if bool_decide (comparePriority r s < 0) then rightChild else smallest
  | _, _ => smallest
  end.

(** [heapifyDown]: the recursion goes from [index] to one of its children
    inside the queue, so the length of the queue bounds the number of
    calls ([heapifyDown_unfold] below gives the equation of the source). *)
Fixpoint heapifyDown_rec (fuel : nat) (q : Queue) (index : nat) : Queue :=
  match fuel with
  | O => q
  | S fuel' =>
    let smallest := smallestOf q index in
    if bool_decide (smallest ≠ index) then
      match q !! index, q !! smallest with
      | Some temp, Some s =>
          heapifyDown_rec fuel'
            (<[smallest := temp]> (<[index := s]> q)) smallest
      | _, _ => q
      end
    else q
  end.

Definition heapifyDown (q : Queue) (index : nat) : Queue :=
  heapifyDown_rec (length q) q index.

Definition insertIntoPriorityQueue (q : Queue) (notice : ScheduledNotice)
  : Queue :=
  let q1 := (q ++ [notice])%list in
  heapifyUp q1 (length q1 - 1).

(** [Array.prototype.pop]: the array without its last element. *)
Definition pop (q : Queue) : Queue := take (length q - 1) q.

(** [getNextNotice] on the queue: the notice returned and the queue left. *)
Definition getNextNotice (q : Queue) : option ScheduledNotice * Queue :=
  match q !! 0%nat, last q with
  | Some notice, Some lastNotice =>
      let q1 := pop q in
      if bool_decide (0 < length q1)%nat
      then (Some notice, heapifyDown (<[0%nat := lastNotice]> q1) 0)
      else (Some notice, q1)
  | _, _ => (None, q)
  end.

(** [findIndex(n => n.noticeId === id)]. *)
Fixpoint findIndex (id : string) (q : Queue) : option nat :=
  match q with
  | [] => None
  | n :: q' => if bool_decide (noticeId n = id) then Some 0%nat
               else S <$> findIndex id q'
  end.

Definition removeFromQueue (q : Queue) (notice : ScheduledNotice) : Queue :=
  match findIndex (noticeId notice) q with
  | Some index =>
      match last q with
      | Some lastNotice =>
          let q1 := pop q in
          if bool_decide (index < length q1)%nat
          then heapifyDown (<[index := lastNotice]> q1) index
          else q1
      | None => q
      end
  | None => q
  end.

(** *** Activation *)

Definition createDeliveryCheckpoint
    (cps : gmap string (list DeliveryCheckpoint))
    (target : string) (notice : ScheduledNotice) (now : Z)
  : gmap string (list DeliveryCheckpoint) :=
  let checkpoint :=
    {| targetId := target; noticeVersionId := noticeId notice;
       status := pending; lastAttemptAt := now; attempts := 0;
       nextRetryAt := Some (now + 5 * 60 * 1000) |} in
  <[target := (default [] (cps !! target) ++ [checkpoint])%list]> cps.

(** [addToDisplayBuffer]: [unshift] for an emergency, [push] otherwise, then
    [shift] while the buffer is longer than [bufferSize]. *)
Definition trim (cap : nat) (buffer : list ScheduledNotice)
  : list ScheduledNotice :=
  drop (length buffer - cap) buffer.

Definition addToDisplayBuffer (cap : nat)
    (buffers : gmap string (list ScheduledNotice))
    (displayId : string) (notice : ScheduledNotice)
  : gmap string (list ScheduledNotice) :=
  let buffer := default [] (buffers !! displayId) in
  let buffer1 :=
    if bool_decide (priority notice = EMERGENCY)
    then notice :: buffer
    else (buffer ++ [notice])%list in
  <[displayId := trim cap buffer1]> buffers.

(** [activateNotice]; [now] is the clock reading. *)
Definition activateNotice (st : Sched) (notice : ScheduledNotice) (now : Z)
  : Sched :=
  {| dispatchQueue := dispatchQueue st;
     activeNotices := <[noticeId notice := notice]> (activeNotices st);
     deliveryCheckpoints :=
       foldl (fun cps target =>
                createDeliveryCheckpoint cps target notice now)
             (deliveryCheckpoints st) (targetAudience notice);
     timeIntervals := timeIntervals st;
     displayBuffers :=
       foldl (fun bufs channel =>
                addToDisplayBuffer (bufferSize st) bufs channel notice)
             (displayBuffers st) (channels notice);
     bufferSize := bufferSize st;
     timerWheel := timerWheel st;
     currentTick := currentTick st |}.

(** *** Scheduling *)

(** [addToTimingWheel].  [Math.floor] of the quotient by 1000 is [Z.div];
    the remainder operator takes the sign of the dividend, which is
    [Z.rem]. *)
Definition wheelSlotOf (tick : Z) (notice : ScheduledNotice) (now : Z) : Z :=
  let secondsUntilVisible := (visibleFrom notice - now) `div` 1000 in
  (tick + secondsUntilVisible) `rem` 3600.

Definition addToTimingWheel (st : Sched) (notice : ScheduledNotice) (now : Z)
  : Sched :=
  let wheelSlot := wheelSlotOf (currentTick st) notice now in
  {| dispatchQueue := dispatchQueue st;
     activeNotices := activeNotices st;
     deliveryCheckpoints := deliveryCheckpoints st;
     timeIntervals := timeIntervals st;
     displayBuffers := displayBuffers st;
     bufferSize := bufferSize st;
     timerWheel :=
       <[wheelSlot := (default [] (timerWheel st !! wheelSlot)
                       ++ [notice])%list]> (timerWheel st);
     currentTick := currentTick st |}.

Definition scheduleNotice (st : Sched) (notice : ScheduledNotice) (now : Z)
  : Sched :=
  let st1 :=
    with_queue st (insertIntoPriorityQueue (dispatchQueue st) notice) in
  let st2 := addToTimingWheel st1 notice now in
  {| dispatchQueue := dispatchQueue st2;
     activeNotices := activeNotices st2;
     deliveryCheckpoints := deliveryCheckpoints st2;
     timeIntervals :=
       (timeIntervals st2 ++
        [ {| i_start := visibleFrom notice; i_end := visibleUntil notice;
             i_noticeId := noticeId notice; isBlackout := false |} ])%list;
     displayBuffers := displayBuffers st2;
     bufferSize := bufferSize st2;
     timerWheel := timerWheel st2;
     currentTick := currentTick st2 |}.

Definition preemptWithEmergency (st : Sched) (emergencyNotice : ScheduledNotice)
    (now : Z) : Outcome Sched :=
  if bool_decide (priority emergencyNotice ≠ EMERGENCY)
  then Threw "Only emergency notices can preempt"
  else
    let st1 := with_queue st (emergencyNotice :: dispatchQueue st) in
    Returned (activateNotice st1 emergencyNotice now).

(** [processTimerWheel]: one tick of the wheel at clock reading [now]. *)
Definition processTimerWheel (st : Sched) (now : Z) : Sched :=
  let tick := (currentTick st + 1) `rem` 3600 in
  let st1 :=
    {| dispatchQueue := dispatchQueue st;
       activeNotices := activeNotices st;
       deliveryCheckpoints := deliveryCheckpoints st;
       timeIntervals := timeIntervals st;
       displayBuffers := displayBuffers st;
       bufferSize := bufferSize st;
       timerWheel := timerWheel st;
       currentTick := tick |} in
  match timerWheel st1 !! tick with
  | Some notices =>
      let st2 :=
        foldl (fun s notice =>
                 if bool_decide (visibleFrom notice <= now)
                 then activateNotice s notice now else s)
              st1 notices in
      {| dispatchQueue := dispatchQueue st2;
         activeNotices := activeNotices st2;
         deliveryCheckpoints := deliveryCheckpoints st2;
         timeIntervals := timeIntervals st2;
         displayBuffers := displayBuffers st2;
         bufferSize := bufferSize st2;
         timerWheel := delete tick (timerWheel st2);
         currentTick := currentTick st2 |}
  | None => st1
  end.

(** The notices that the periodic scan selects at [now]. *)
Definition toActivate (q : Queue) (now : Z) : list ScheduledNotice :=
  filter (fun notice => visibleFrom notice <= now ∧ now < visibleUntil notice)
         q.

(** [processScheduledNotices]: the periodic scan at clock reading [now]. *)
Definition processScheduledNotices (st : Sched) (now : Z) : Sched :=
  foldl (fun s notice =>
           let s1 := activateNotice s notice now in
           with_queue s1 (removeFromQueue (dispatchQueue s1) notice))
        st (toActivate (dispatchQueue st) now).

(** *** Display, delivery tracking, intervals and clean-up *)

(** [getDisplayNotices]; [now] is the clock reading. *)
Definition getDisplayNotices (st : Sched) (displayId : string) (now : Z)
  : list ScheduledNotice :=
  let buffer := default [] (displayBuffers st !! displayId) in
  filter (fun notice => visibleFrom notice <= now ∧ now < visibleUntil notice)
         buffer.

#[global] Instance DeliveryStatus_eq_dec : EqDecision DeliveryStatus.
Proof. solve_decision. Defined.

(** The update that [updateDeliveryStatus] makes in place on the checkpoint
    it has found. *)
Definition updateCheckpoint (cp : DeliveryCheckpoint)
    (newStatus : DeliveryStatus) (now : Z) : DeliveryCheckpoint :=
  if bool_decide (newStatus = failed) && bool_decide (attempts cp < 3)
  then
    let backoffMs := 2 ^ attempts cp * 60 * 1000 in
    {| targetId := targetId cp; noticeVersionId := noticeVersionId cp;
       status := newStatus; lastAttemptAt := now;
       attempts := attempts cp + 1;
       nextRetryAt := Some (now + backoffMs) |}
  else
    {| targetId := targetId cp; noticeVersionId := noticeVersionId cp;
       status := newStatus; lastAttemptAt := now;
       attempts := attempts cp;
       nextRetryAt := nextRetryAt cp |}.

(** [checkpoints.find(cp => cp.noticeVersionId === noticeId)] and the update
    of the checkpoint found, which is the first of the array with that id. *)
Fixpoint updateFound (id : string) (newStatus : DeliveryStatus) (now : Z)
    (checkpoints : list DeliveryCheckpoint) : list DeliveryCheckpoint :=
  match checkpoints with
  | [] => []
  | cp :: rest =>
      if bool_decide (noticeVersionId cp = id)
      then updateCheckpoint cp newStatus now :: rest
      else cp :: updateFound id newStatus now rest
  end.

Definition updateDeliveryStatus (st : Sched) (target id : string)
    (newStatus : DeliveryStatus) (now : Z) : Sched :=
  match deliveryCheckpoints st !! target with
  | Some checkpoints =>
      {| dispatchQueue := dispatchQueue st;
         activeNotices := activeNotices st;
         deliveryCheckpoints :=
           <[target := updateFound id newStatus now checkpoints]>
             (deliveryCheckpoints st);
         timeIntervals := timeIntervals st;
         displayBuffers := displayBuffers st;
         bufferSize := bufferSize st;
         timerWheel := timerWheel st;
         currentTick := currentTick st |}
  | None => st
  end.

Definition overlaps (start end_ : Z) (interval : TimeInterval) : Prop :=
  i_start interval < end_ ∧ start < i_end interval.

#[global] Instance overlaps_dec start end_ interval :
  Decision (overlaps start end_ interval).
Proof. unfold overlaps. apply _. Defined.

Definition findOverlappingNotices (st : Sched) (start end_ : Z)
  : list TimeInterval :=
  filter (overlaps start end_) (timeIntervals st).

(** [addBlackoutPeriod]; [stamp] is the decimal text of [Date.now()]. *)
Definition addBlackoutPeriod (st : Sched) (start end_ : Z) (stamp : string)
  : Sched :=
  {| dispatchQueue := dispatchQueue st;
     activeNotices := activeNotices st;
     deliveryCheckpoints := deliveryCheckpoints st;
     timeIntervals :=
       (timeIntervals st ++
        [ {| i_start := start; i_end := end_;
             i_noticeId := "blackout-" +:+ stamp; isBlackout := true |} ])%list;
     displayBuffers := displayBuffers st;
     bufferSize := bufferSize st;
     timerWheel := timerWheel st;
     currentTick := currentTick st |}.

(** [isBlackoutPeriod]: [Array.prototype.some]. *)
Definition isBlackoutPeriod (st : Sched) (start end_ : Z) : bool :=
  existsb (fun interval =>
             isBlackout interval
             && bool_decide (i_start interval < end_)
             && bool_decide (start < i_end interval))
          (timeIntervals st).

(** [cleanupExpiredNotices] at clock reading [now].  The ids of the expired
    notices are collected first and deleted afterwards; the order in which
    the map is visited shows only in the console output. *)
Definition expiredIds (active : gmap string ScheduledNotice) (now : Z)
  : list string :=
  (filter (fun entry => visibleUntil entry.2 <= now) (map_to_list active)).*1.

Definition cleanupExpiredNotices (st : Sched) (now : Z) : Sched :=
  {| dispatchQueue := dispatchQueue st;
     activeNotices :=
       foldl (fun active id => delete id active) (activeNotices st)
             (expiredIds (activeNotices st) now);
     deliveryCheckpoints := deliveryCheckpoints st;
     timeIntervals :=
       filter (fun interval => now - 24 * 60 * 60 * 1000 < i_end interval)
              (timeIntervals st);
     displayBuffers :=
       (fun buffer => filter (fun notice => now < visibleUntil notice) buffer)
         <$> displayBuffers st;
     bufferSize := bufferSize st;
     timerWheel := timerWheel st;
     currentTick := currentTick st |}.

End Scheduler.

(** * Properties of the lifecycle state machine *)

Section LifecycleFacts.
Import Lifecycle.

(** The table of the constructor, evaluated. *)
Lemma getNextState_archived_reinstate :
  getNextState initializeTransitionTable ARCHIVED REINSTATE = Some REINSTATED.
Proof. reflexivity. Qed.

Lemma logTransition_log st t :
  stateLog (logTransition st t) = (stateLog st ++ [t])%list.
Proof. reflexivity. Qed.

(** What [transition] does with an initialised notice, branch by branch. *)
Lemma transition_table_miss st id tid inp cur ctx :
  noticeStates st !! id = Some cur ->
  noticeContexts st !! id = Some ctx ->
  getNextState (transitionTable st) cur (event inp) = None ->
  exists why,
    transition st id tid inp =
      Returned (rejected tid id cur inp why,
                logTransition st (rejected tid id cur inp why)).
Proof.
  intros Hs Hc Hn. unfold transition. rewrite Hs, Hc, Hn. eauto.
Qed.

Lemma transition_guard_reject st id tid inp cur ctx new :
  noticeStates st !! id = Some cur ->
  noticeContexts st !! id = Some ctx ->
  getNextState (transitionTable st) cur (event inp) = Some new ->
  allowed (evaluateGuards cur new inp ctx) = false ->
  transition st id tid inp =
    Returned (rejected tid id cur inp (g_reason (evaluateGuards cur new inp ctx)),
              logTransition st
                (rejected tid id cur inp
                   (g_reason (evaluateGuards cur new inp ctx)))).
Proof.
  intros Hs Hc Hn Hg. unfold transition. rewrite Hs, Hc, Hn, Hg. done.
Qed.

Lemma transition_success st id tid inp cur ctx new :
  noticeStates st !! id = Some cur ->
  noticeContexts st !! id = Some ctx ->
  getNextState (transitionTable st) cur (event inp) = Some new ->
  allowed (evaluateGuards cur new inp ctx) = true ->
  exists r st',
    transition st id tid inp = Returned (r, st') /\
    isValid r = true /\ fromState r = cur /\ toState r = new /\
    stateLog st' = (stateLog st ++ [r])%list /\
    noticeStates st' = <[id := new]> (noticeStates st) /\
    noticeContexts st' =
      <[id := updateContextAfterTransition ctx new inp]> (noticeContexts st).
Proof.
  intros Hs Hc Hn Hg. unfold transition. rewrite Hs, Hc, Hn, Hg.
  eexists _, _. split; [reflexivity|]. simpl. auto 10.
Qed.

(** The predicate of claim C1: the pair is absent from the table, or it is
    present and a guard rejects. *)
Definition refused (st : FSM) (cur : NoticeState) (ctx : NoticeContext)
    (inp : TransitionInput) : Prop :=
  getNextState (transitionTable st) cur (event inp) = None \/
  exists new, getNextState (transitionTable st) cur (event inp) = Some new /\
              allowed (evaluateGuards cur new inp ctx) = false.

(** C1.  On an initialised notice every call of [transition] returns a
    record and appends exactly that one record to the log.  When the
    (state, event) pair is missing from the table, or a guard rejects, the
    record is invalid and the states and contexts of all notices are left as
    they were; the state map changes only when the record is valid. *)
Theorem transition_appends_one_record st id tid inp cur ctx :
  noticeStates st !! id = Some cur ->
  noticeContexts st !! id = Some ctx ->
  exists r st',
    transition st id tid inp = Returned (r, st') /\
    stateLog st' = (stateLog st ++ [r])%list /\
    (refused st cur ctx inp ->
       isValid r = false /\ fromState r = cur /\ toState r = cur /\
       noticeStates st' = noticeStates st /\
       noticeContexts st' = noticeContexts st) /\
    (isValid r = false ->
       noticeStates st' = noticeStates st /\
       noticeContexts st' = noticeContexts st) /\
    (isValid r = true ->
       noticeStates st' = <[id := toState r]> (noticeStates st) /\
       getNextState (transitionTable st) cur (event inp) = Some (toState r)).
Proof.
  intros Hs Hc.
  destruct (getNextState (transitionTable st) cur (event inp)) as [new|] eqn:Hn.
  - destruct (allowed (evaluateGuards cur new inp ctx)) eqn:Hg.
    + destruct (transition_success st id tid inp cur ctx new Hs Hc Hn Hg)
        as (r & st' & Ht & Hv & Hf & Hto & Hlog & Hst & Hctx).
      exists r, st'. split; [done|]. split; [done|].
      split; [|split].
      * intros [Hnone | (new' & Hn' & Hg')]; [congruence|].
        assert (new' = new) by congruence. subst. congruence.
      * congruence.
      * intros _. rewrite Hto. done.
    + rewrite (transition_guard_reject st id tid inp cur ctx new Hs Hc Hn Hg).
      eexists _, _. split; [reflexivity|]. simpl. split; [done|].
      split; [|split]; try done.
  - destruct (transition_table_miss st id tid inp cur ctx Hs Hc Hn) as [why Ht].
    rewrite Ht. eexists _, _. split; [reflexivity|]. simpl. split; [done|].
    split; [|split]; try done.
Qed.

(** A notice freshly initialised by the constructor's machine. *)
Definition sampleContext : NoticeContext :=
  {| c_id := "n1"; currentState := DRAFT; createdAt := 0;
     visibleFrom := None; visibleUntil := None; priority := 3;
     authorId := "alice"; lastModifiedAt := 0 |}.

Definition oneNotice : FSM :=
  initializeNotice constructor "n1" sampleContext "trans_0" 0.

Lemma transition_appends_one_record_witness :
  exists r st',
    transition oneNotice "n1" "trans_1"
      (mkInput EXPIRE 5 "bob" UserRole.PUBLISHER None) = Returned (r, st') /\
    stateLog st' = (stateLog oneNotice ++ [r])%list /\
    (refused oneNotice DRAFT sampleContext
       (mkInput EXPIRE 5 "bob" UserRole.PUBLISHER None) ->
       isValid r = false /\ fromState r = DRAFT /\ toState r = DRAFT /\
       noticeStates st' = noticeStates oneNotice /\
       noticeContexts st' = noticeContexts oneNotice) /\
    (isValid r = false ->
       noticeStates st' = noticeStates oneNotice /\
       noticeContexts st' = noticeContexts oneNotice) /\
    (isValid r = true ->
       noticeStates st' = <["n1" := toState r]> (noticeStates oneNotice) /\
       getNextState (transitionTable oneNotice) DRAFT EXPIRE
         = Some (toState r)).
Proof.
  apply (transition_appends_one_record oneNotice "n1" "trans_1"
           (mkInput EXPIRE 5 "bob" UserRole.PUBLISHER None)
           DRAFT sampleContext); reflexivity.
Defined.

(** C9, as the code has it.  [transition] on an id that was never
    initialised throws [Notice <id> not found]: nothing is returned. *)
Theorem transition_unknown_id_throws st id tid inp :
  noticeStates st !! id = None ->
  transition st id tid inp = Threw ("Notice " +:+ id +:+ " not found").
Proof. intros H. unfold transition. by rewrite H. Qed.

Lemma transition_unknown_id_throws_witness :
  transition constructor "ghost" "trans_1"
    (mkInput SUBMIT 5 "bob" UserRole.PUBLISHER None)
  = Threw "Notice ghost not found".
Proof.
  apply (transition_unknown_id_throws constructor "ghost" "trans_1"
           (mkInput SUBMIT 5 "bob" UserRole.PUBLISHER None)).
  reflexivity.
Defined.

(** C9, as the claim has it, fails: on the machine of the constructor the
    call for the unknown id ["ghost"] returns no result value at all. *)
Lemma transition_unknown_id_returns_nothing :
  ~ exists result,
      transition constructor "ghost" "trans_1"
        (mkInput SUBMIT 5 "bob" UserRole.PUBLISHER None) = Returned result.
Proof. intros [result H]. vm_compute in H. discriminate H. Qed.

(** *** Reinstating an archived notice after more than 30 days *)

Definition reinstateBy (role : string) (ts : Z) : TransitionInput :=
  {| event := REINSTATE; timestamp := ts; userId := "actor";
     userRole := role; metadata := None |}.

(** A reason cites the 30-day window when it mentions those words. *)
Definition cites30Days (r : StateTransition) : Prop :=
  exists msg, reason r = Some msg /\ is_Some (String.index 0 "30 days" msg).

(** A notice archived at time 1000 ([DRAFT] archive, by a publisher). *)
Definition archivedNotice : FSM :=
  match transition oneNotice "n1" "trans_1"
          (mkInput ARCHIVE 1000 "alice" UserRole.PUBLISHER None) with
  | Returned (_, st) => st
  | Threw _ => oneNotice
  end.

Lemma archivedNotice_state :
  noticeStates archivedNotice !! "n1" = Some ARCHIVED /\
  (lastModifiedAt <$> noticeContexts archivedNotice !! "n1") = Some 1000.
Proof. split; reflexivity. Qed.

(** C5, as the claim has it, fails: 31 days after archival the moderator is
    rejected, but the reason is the one of the role guard of [reinstate],
    which does not mention the 30-day window. *)
Lemma reinstate_moderator_reason_not_30_days :
  ~ exists r st',
      transition archivedNotice "n1" "trans_2"
        (reinstateBy UserRole.MODERATOR (1000 + 31 * msPerDay))
        = Returned (r, st') /\
      isValid r = false /\ cites30Days r.
Proof.
  intros (r & st' & Ht & _ & msg & Hr & Hi).
  vm_compute in Ht. injection Ht as <- _. simpl in Hr.
  injection Hr as <-. vm_compute in Hi. destruct Hi as [x Hx]. discriminate Hx.
Qed.

(** The role guard of [reinstate] decides before the 30-day check is
    reached: anyone but an admin is turned away by it, and for an admin the
    30-day check never rejects. *)
Lemma guards_reinstate_moderator fromS toS ts ctx :
  evaluateGuards fromS toS (reinstateBy UserRole.MODERATOR ts) ctx
  = deny "Only admins can reinstate notices".
Proof. reflexivity. Qed.

Lemma guards_reinstate_admin fromS toS ts ctx :
  evaluateGuards fromS toS (reinstateBy UserRole.ADMIN ts) ctx
  = {| allowed := true; g_reason := None |}.
Proof.
  unfold evaluateGuards.
  cbn [event userRole timestamp reinstateBy].
  replace (bool_decide (UserRole.ADMIN ≠ UserRole.ADMIN)) with false
    by (symmetry; apply bool_decide_eq_false; intros H; by apply H).
  rewrite !andb_false_r.
  reflexivity.
Qed.

(** C5, as the code has it.  For a notice in [ARCHIVED] last modified 31
    days before the time stamp, [reinstate] by a moderator is rejected with
    the reason [Only admins can reinstate notices], the notice staying
    [ARCHIVED]; the same call by an admin succeeds and moves it to
    [REINSTATED]. *)
Theorem reinstate_after_31_days st id tid ts ctx :
  transitionTable st = initializeTransitionTable ->
  noticeStates st !! id = Some ARCHIVED ->
  noticeContexts st !! id = Some ctx ->
  lastModifiedAt ctx = ts - 31 * msPerDay ->
  (exists r st',
     transition st id tid (reinstateBy UserRole.MODERATOR ts)
       = Returned (r, st') /\
     isValid r = false /\
     reason r = Some "Only admins can reinstate notices" /\
     toState r = ARCHIVED /\
     noticeStates st' !! id = Some ARCHIVED) /\
  (exists r st',
     transition st id tid (reinstateBy UserRole.ADMIN ts)
       = Returned (r, st') /\
     isValid r = true /\ fromState r = ARCHIVED /\
     toState r = REINSTATED /\
     noticeStates st' !! id = Some REINSTATED).
Proof.
  intros Htbl Hs Hc Hlm. split.
  - rewrite (transition_guard_reject st id tid _ ARCHIVED ctx REINSTATED Hs Hc);
      [ | by rewrite Htbl | by rewrite guards_reinstate_moderator ].
    rewrite guards_reinstate_moderator.
    eexists _, _. split; [reflexivity|]. cbn. auto.
  - destruct (transition_success st id tid (reinstateBy UserRole.ADMIN ts)
                ARCHIVED ctx REINSTATED Hs Hc)
      as (r & st' & Ht & Hv & Hf & Hto & _ & Hst & _);
      [ by rewrite Htbl | by rewrite guards_reinstate_admin | ].
    exists r, st'. split; [exact Ht|]. split; [exact Hv|].
    split; [exact Hf|]. split; [exact Hto|].
    rewrite Hst. apply lookup_insert_eq.
Qed.

Lemma reinstate_after_31_days_witness :
  (exists r st',
     transition archivedNotice "n1" "trans_2"
       (reinstateBy UserRole.MODERATOR (1000 + 31 * msPerDay))
       = Returned (r, st') /\
     isValid r = false /\
     reason r = Some "Only admins can reinstate notices" /\
     toState r = ARCHIVED /\
     noticeStates st' !! "n1" = Some ARCHIVED) /\
  (exists r st',
     transition archivedNotice "n1" "trans_2"
       (reinstateBy UserRole.ADMIN (1000 + 31 * msPerDay))
       = Returned (r, st') /\
     isValid r = true /\ fromState r = ARCHIVED /\
     toState r = REINSTATED /\
     noticeStates st' !! "n1" = Some REINSTATED).
Proof.
  apply (reinstate_after_31_days archivedNotice "n1" "trans_2"
           (1000 + 31 * msPerDay)
           {| c_id := "n1"; currentState := ARCHIVED; createdAt := 0;
              visibleFrom := None; visibleUntil := None; priority := 3;
              authorId := "alice"; lastModifiedAt := 1000 |});
    reflexivity.
Defined.

(** *** Structural validation of the constructor's table *)

(** An edge of the table, and reachability as its reflexive transitive
    closure. *)
Definition edge (tbl : TransitionTable) (s s' : NoticeState) : Prop :=
  exists ev, getNextState tbl s ev = Some s'.

Definition reachableFrom (tbl : TransitionTable) (s0 s : NoticeState) : Prop :=
  rtc (edge tbl) s0 s.

(** Following a list of events through the table. *)
Fixpoint follow (tbl : TransitionTable) (s : NoticeState)
    (evs : list NoticeEvent) : option NoticeState :=
  match evs with
  | [] => Some s
  | ev :: evs' =>
      match getNextState tbl s ev with
      | Some s' => follow tbl s' evs'
      | None => None
      end
  end.

Lemma follow_reachable tbl evs : forall s s',
  follow tbl s evs = Some s' -> reachableFrom tbl s s'.
Proof.
  induction evs as [|ev evs IH]; intros s s' H; simpl in H.
  - injection H as <-. apply rtc_refl.
  - destruct (getNextState tbl s ev) as [s1|] eqn:E; [|discriminate].
    eapply rtc_l; [exists ev; exact E | by apply IH].
Qed.

(** A path of events from [DRAFT] to each state. *)
Definition pathTo (s : NoticeState) : list NoticeEvent :=
  match s with
  | DRAFT => []
  | SUBMITTED => [SUBMIT]
  | MODERATION_PENDING => [SUBMIT; APPROVE]
  | APPROVED => [SUBMIT; APPROVE; APPROVE]
  | REJECTED => [SUBMIT; REJECT]
  | SCHEDULED => [SUBMIT; APPROVE; APPROVE; SCHEDULE]
  | ACTIVE => [SUBMIT; APPROVE; APPROVE; ACTIVATE]
  | EXPIRED => [SUBMIT; APPROVE; APPROVE; ACTIVATE; EXPIRE]
  | ARCHIVED => [ARCHIVE]
  | REINSTATED => [ARCHIVE; REINSTATE]
  end.

Lemma pathTo_arrives s :
  follow initializeTransitionTable DRAFT (pathTo s) = Some s.
Proof. destruct s; reflexivity. Qed.

(** One outgoing event of each state. *)
Definition someEventOf (s : NoticeState) : NoticeEvent :=
  match s with
  | DRAFT => SUBMIT
  | SUBMITTED | MODERATION_PENDING | REINSTATED => APPROVE
  | APPROVED => SCHEDULE
  | SCHEDULED => ACTIVATE
  | ACTIVE => EXPIRE
  | EXPIRED => ARCHIVE
  | ARCHIVED | REJECTED => REINSTATE
  end.

(** A pass of the reachability loop adds states that were not yet there
    and reports a change exactly when it added one; this is what bounds the
    number of passes in [validateFSM]. *)
Lemma reachPass_row_grows (row : JsMap.t NoticeEvent NoticeState) :
  forall reach changed,
    let '(reach', changed') :=
      foldl (fun '(reach, changed) '(_, toS) =>
               if bool_decide (toS ∈ reach) then (reach, changed)
               else ((reach ++ [toS])%list, true))
            (reach, changed) row in
    NoDup reach ->
    NoDup reach' /\ (length reach <= length reach')%nat /\
    (changed' = true ->
       changed = true \/ (length reach < length reach')%nat).
Proof.
  induction row as [|[ev toS] row IH]; intros reach changed; simpl.
  - intros Hnd. auto with lia.
  - case_bool_decide as Hin.
    + apply IH.
    + specialize (IH (reach ++ [toS])%list true).
      destruct (foldl _ _ row) as [reach' changed'] eqn:E.
      intros Hnd.
      destruct IH as (Hnd' & Hlen & _).
      { apply NoDup_app. split; [done|]. split.
        - intros x Hx Hx'. apply list_elem_of_singleton in Hx'. by subst.
        - apply NoDup_singleton. }
      rewrite length_app in Hlen. simpl in Hlen.
      split; [done|]. split; [lia|]. intros _. right. lia.
Qed.

Lemma reachPass_grows (tbl : TransitionTable) reachable :
  NoDup reachable ->
  NoDup (reachPass tbl reachable).1 /\
  (length reachable <= length (reachPass tbl reachable).1)%nat /\
  ((reachPass tbl reachable).2 = true ->
     (length reachable < length (reachPass tbl reachable).1)%nat).
Proof.
  unfold reachPass.
  assert (G : forall (tbl : TransitionTable) reach changed,
    NoDup reach ->
    let r := foldl (fun '(reach, changed) '(fromS, row) =>
           if bool_decide (fromS ∈ reach) then
             foldl (fun '(reach, changed) '(_, toS) =>
                      if bool_decide (toS ∈ reach) then (reach, changed)
                      else ((reach ++ [toS])%list, true))
                   (reach, changed) (row : JsMap.t NoticeEvent NoticeState)
           else (reach, changed))
        (reach, changed) tbl in
    NoDup r.1 /\ (length reach <= length r.1)%nat /\
    (r.2 = true -> changed = true \/ (length reach < length r.1)%nat)).
  { clear. induction tbl as [|[fromS row] tbl IH]; intros reach changed Hnd.
    - simpl. auto with lia.
    - simpl. case_bool_decide as Hin.
      + pose proof (reachPass_row_grows row reach changed) as Hrow.
        destruct (foldl _ (reach, changed) row) as [reach1 changed1] eqn:E.
        destruct (Hrow Hnd) as (Hnd1 & Hlen1 & Hch1).
        destruct (IH reach1 changed1 Hnd1) as (Hnd2 & Hlen2 & Hch2).
        split; [done|]. split; [lia|]. intros Hc.
        destruct (Hch2 Hc) as [Hc1 | Hlt]; [|right; lia].
        destruct (Hch1 Hc1) as [? | ?]; [by left | right; lia].
      + apply IH, Hnd. }
  intros Hnd. destruct (G tbl reachable false Hnd) as (H1 & H2 & H3).
  split; [done|]. split; [done|]. intros Hc.
  destruct (H3 Hc) as [? | ?]; [discriminate | done].
Qed.

Lemma states_NoDup_bound (l : list NoticeState) :
  NoDup l -> (length l <= length all_states)%nat.
Proof.
  intros Hnd. apply submseteq_length, NoDup_submseteq; [done|].
  intros s _. destruct s; unfold all_states; set_solver.
Qed.

(** The loop of [validateFSM] ends within its bound, whatever the table. *)
Lemma reachLoop_terminates (tbl : TransitionTable) : forall fuel reachable,
  NoDup reachable ->
  (length all_states < fuel + length reachable)%nat ->
  is_Some (reachLoop fuel tbl reachable).
Proof.
  induction fuel as [|fuel IH]; intros reachable Hnd Hfuel.
  - pose proof (states_NoDup_bound reachable Hnd). lia.
  - cbn [reachLoop].
    pose proof (reachPass_grows tbl reachable Hnd) as (Hnd' & _ & Hch).
    destruct (reachPass tbl reachable) as [reach changed]. cbn [fst snd] in *.
    destruct changed; [|eauto].
    apply IH; [done|]. specialize (Hch eq_refl). lia.
Qed.

Lemma validateFSM_total st : is_Some (validateFSM st).
Proof.
  unfold validateFSM.
  destruct (reachLoop_terminates (transitionTable st)
              (S (length all_states)) [DRAFT]) as [r Hr].
  - apply NoDup_singleton.
  - cbn [length]. lia.
  - rewrite Hr. eauto.
Qed.

(** C10.  On the table built by the constructor [validateFSM] returns
    [isValid = true] with no issues; every one of the ten states is
    reachable from [DRAFT] through the table, and every state, [ARCHIVED]
    and [REJECTED] included, has an outgoing transition. *)
Theorem validateFSM_constructor_valid :
  validateFSM constructor = Some {| v_isValid := true; issues := [] |} /\
  (forall s, reachableFrom (transitionTable constructor) DRAFT s) /\
  (forall s, exists ev s',
     getNextState (transitionTable constructor) s ev = Some s') /\
  getNextState (transitionTable constructor) ARCHIVED REINSTATE
    = Some REINSTATED /\
  getNextState (transitionTable constructor) REJECTED REINSTATE
    = Some REINSTATED.
Proof.
  split; [vm_compute; reflexivity|]. split; [|split; [|split; reflexivity]].
  - intros s. apply (follow_reachable _ (pathTo s)), pathTo_arrives.
  - intros s. exists (someEventOf s).
    destruct (getNextState (transitionTable constructor) s (someEventOf s))
      as [s'|] eqn:E; [by exists s'|].
    destruct s; vm_compute in E; discriminate E.
Qed.

End LifecycleFacts.

(** * Properties of audience targeting *)

Section BloomFacts.
Import Bloom.
Variable hashAt : nat -> string -> nat.

(** Setting cells never clears one and keeps the length of the array. *)
Lemma set_cells_length (idxs : list nat) : forall bits : list bool,
  length (foldl (fun bits i => <[i := true]> bits) bits idxs) = length bits.
Proof.
  induction idxs as [|i idxs IH]; intros bits; simpl; [done|].
  by rewrite IH, length_insert.
Qed.

Lemma set_cells_keeps (idxs : list nat) : forall (bits : list bool) j,
  bits !! j = Some true ->
  foldl (fun bits i => <[i := true]> bits) bits idxs !! j = Some true.
Proof.
  induction idxs as [|i idxs IH]; intros bits j Hj; simpl; [done|].
  apply IH. destruct (decide (i = j)) as [->|Hne].
  - apply list_lookup_insert_eq. by eapply lookup_lt_Some.
  - by rewrite list_lookup_insert_ne.
Qed.

Lemma set_cells_sets (idxs : list nat) : forall (bits : list bool) j,
  j ∈ idxs -> (j < length bits)%nat ->
  foldl (fun bits i => <[i := true]> bits) bits idxs !! j = Some true.
Proof.
  induction idxs as [|i idxs IH]; intros bits j Hin Hlt; simpl.
  - by apply not_elem_of_nil in Hin.
  - apply elem_of_cons in Hin as [->|Hin].
    + apply set_cells_keeps. by apply list_lookup_insert_eq.
    + apply IH; [done|]. by rewrite length_insert.
Qed.

(** The shape every filter built by [create] and [add] has. *)
Definition wellSized (bf : BloomFilter) : Prop :=
  length (filter bf) = size bf /\ (0 < size bf)%nat.

Lemma create_wellSized sz k : (0 < sz)%nat -> wellSized (create sz k).
Proof. intros H. split; [apply length_replicate | done]. Qed.

Lemma add_wellSized bf el : wellSized bf -> wellSized (add hashAt bf el).
Proof.
  intros [Hl Hs]. split; [|done]. simpl. by rewrite set_cells_length.
Qed.

Lemma getIndexes_in_range bf el i :
  wellSized bf -> i ∈ getIndexes hashAt bf el -> (i < length (filter bf))%nat.
Proof.
  intros [Hl Hs] Hin. unfold getIndexes in Hin.
  apply list_elem_of_fmap in Hin as (k & -> & _).
  rewrite Hl. apply Nat.mod_upper_bound. lia.
Qed.

(** [has] is true exactly when every cell of the element is set. *)
Lemma has_true bf el :
  has hashAt bf el = true <->
  forall i, i ∈ getIndexes hashAt bf el -> filter bf !! i = Some true.
Proof.
  unfold has. rewrite forallb_forall. split.
  - intros H i Hi. apply list_elem_of_In in Hi.
    specialize (H i Hi). by apply bool_decide_eq_true in H.
  - intros H i Hi. apply bool_decide_eq_true, H. by apply list_elem_of_In.
Qed.

Lemma has_after_add bf el :
  wellSized bf -> has hashAt (add hashAt bf el) el = true.
Proof.
  intros Hw. apply has_true. intros i Hi. simpl.
  change (getIndexes hashAt (add hashAt bf el) el)
    with (getIndexes hashAt bf el) in Hi.
  apply set_cells_sets; [done|]. by eapply getIndexes_in_range.
Qed.

Lemma has_preserved_by_add bf el other :
  has hashAt bf el = true -> has hashAt (add hashAt bf other) el = true.
Proof.
  rewrite !has_true. intros H i Hi. simpl.
  apply set_cells_keeps, H. exact Hi.
Qed.

End BloomFacts.

Section TargetingFacts.
Import Targeting.
Variable hashAt : nat -> string -> nat.

(** The calls that change the service. *)
Inductive Call : Type :=
| CallRegister (u : UserAttributes)
| CallMarkSeen (uid noticeId : string).

Definition perform (sv : Service) (c : Call) : Service :=
  match c with
  | CallRegister u => registerUser sv u
  | CallMarkSeen uid noticeId => markNoticeSeen hashAt sv uid noticeId
  end.

Definition performAll (sv : Service) (cs : list Call) : Service :=
  foldl perform sv cs.

Lemma registerUser_bloom sv u :
  seenNoticesBloom (registerUser sv u) = seenNoticesBloom sv.
Proof.
  unfold registerUser.
  destruct (userIdToNumber sv !! userId u) as [n|] eqn:E.
  - rewrite E. reflexivity.
  - rewrite lookup_insert_eq. reflexivity.
Qed.

Lemma registerUser_assigns sv u :
  is_Some (userIdToNumber (registerUser sv u) !! userId u).
Proof.
  unfold registerUser.
  destruct (userIdToNumber sv !! userId u) as [n|] eqn:E.
  - rewrite E. simpl. rewrite E. eauto.
  - rewrite lookup_insert_eq. simpl. rewrite lookup_insert_eq. eauto.
Qed.

Lemma perform_wellSized sv c :
  wellSized (seenNoticesBloom sv) ->
  wellSized (seenNoticesBloom (perform sv c)).
Proof.
  destruct c as [u|uid nid]; simpl.
  - by rewrite registerUser_bloom.
  - apply add_wellSized.
Qed.

Lemma performAll_wellSized cs : forall sv,
  wellSized (seenNoticesBloom sv) ->
  wellSized (seenNoticesBloom (performAll sv cs)).
Proof.
  induction cs as [|c cs IH]; intros sv H; simpl; [done|].
  apply IH, perform_wellSized, H.
Qed.

Lemma constructor_wellSized : wellSized (seenNoticesBloom constructor).
Proof.
  apply create_wellSized. apply Nat.ltb_lt. vm_compute. reflexivity.
Qed.

Lemma seen_preserved_by_perform sv c uid noticeId :
  hasUserSeenNotice hashAt sv uid noticeId = true ->
  hasUserSeenNotice hashAt (perform sv c) uid noticeId = true.
Proof.
  unfold hasUserSeenNotice. destruct c as [u|uid' nid']; simpl.
  - by rewrite registerUser_bloom.
  - apply has_preserved_by_add.
Qed.

Lemma seen_preserved_by_performAll cs : forall sv uid noticeId,
  hasUserSeenNotice hashAt sv uid noticeId = true ->
  hasUserSeenNotice hashAt (performAll sv cs) uid noticeId = true.
Proof.
  induction cs as [|c cs IH]; intros sv uid noticeId H; simpl; [done|].
  apply IH, seen_preserved_by_perform, H.
Qed.

(** C4.  Whatever calls came before, once [markNoticeSeen u n] has been
    called, [hasUserSeenNotice u n] is true after any further calls
    (registrations or other marks): the seen check has no false negative. *)
Theorem markNoticeSeen_no_false_negative
    (before after : list Call) (u n : string) :
  hasUserSeenNotice hashAt
    (performAll (markNoticeSeen hashAt (performAll constructor before) u n)
                after) u n = true.
Proof.
  apply seen_preserved_by_performAll.
  unfold hasUserSeenNotice, markNoticeSeen. simpl.
  apply has_after_add, performAll_wellSized, constructor_wellSized.
Qed.

(** *** Eligibility when a listed department has no member *)

Definition salesAdmin : UserAttributes :=
  {| userId := "u1"; role := "admin"; department := "Sales";
     location := "hq"; language := "en"; deviceCapabilities := [];
     tags := [] |}.

Definition engAdmin : UserAttributes :=
  {| userId := "u2"; role := "admin"; department := "Eng";
     location := "hq"; language := "en"; deviceCapabilities := [];
     tags := [] |}.

Definition twoAdmins : Service :=
  registerUser (registerUser constructor salesAdmin) engAdmin.

Definition ruleGhost : AudienceRule :=
  {| r_id := "rule_1"; expression := ""; topics := [];
     departments := ["Ghost"]; roles := ["admin"]; locations := [];
     r_tags := [] |}.

Definition ruleGhostEng : AudienceRule :=
  {| r_id := "rule_1"; expression := ""; topics := [];
     departments := ["Ghost"; "Eng"]; roles := ["admin"]; locations := [];
     r_tags := [] |}.

(** C3 at a failing input.  With departments [Ghost] (no member) and role
    [admin] the department union is empty, the role step takes the role
    union instead of intersecting, and both admins are returned; adding
    [Eng] to the departments then removes the admin of Sales. *)
Theorem findEligibleUsers_loses_user_when_department_added :
  findEligibleUsers twoAdmins ruleGhost = ["u1"; "u2"] /\
  findEligibleUsers twoAdmins ruleGhostEng = ["u2"] /\
  "u1" ∈ findEligibleUsers twoAdmins ruleGhost /\
  "u1" ∉ findEligibleUsers twoAdmins ruleGhostEng.
Proof.
  assert (H1 : findEligibleUsers twoAdmins ruleGhost = ["u1"; "u2"])
    by (vm_compute; reflexivity).
  assert (H2 : findEligibleUsers twoAdmins ruleGhostEng = ["u2"])
    by (vm_compute; reflexivity).
  rewrite H1, H2. split; [done|]. split; [done|]. split.
  - apply list_elem_of_here.
  - intros H. apply list_elem_of_singleton in H. discriminate H.
Qed.

End TargetingFacts.

(** * Properties of the scheduler *)

Section BufferFacts.
Import Scheduler.

Lemma trim_fits cap (buffer : list ScheduledNotice) :
  (length buffer <= cap)%nat -> trim cap buffer = buffer.
Proof.
  intros H. unfold trim. replace (length buffer - cap)%nat with 0%nat by lia.
  reflexivity.
Qed.

Lemma trim_length cap (buffer : list ScheduledNotice) :
  (length (trim cap buffer) <= cap)%nat.
Proof. unfold trim. rewrite length_drop. lia. Qed.

(** A notice that is not an emergency goes to the tail; when the buffer was
    full the oldest entry, at the head, is dropped. *)
Lemma addToDisplayBuffer_normal cap buffers displayId notice :
  priority notice <> EMERGENCY ->
  addToDisplayBuffer cap buffers displayId notice !! displayId =
    Some (trim cap (default [] (buffers !! displayId) ++ [notice])).
Proof.
  intros Hp. unfold addToDisplayBuffer.
  rewrite bool_decide_eq_false_2 by done. apply lookup_insert_eq.
Qed.

Lemma addToDisplayBuffer_normal_full cap buffers displayId notice oldest rest :
  priority notice <> EMERGENCY ->
  buffers !! displayId = Some (oldest :: rest) ->
  length (oldest :: rest) = cap ->
  addToDisplayBuffer cap buffers displayId notice !! displayId =
    Some (rest ++ [notice])%list.
Proof.
  intros Hp Hb Hlen. rewrite addToDisplayBuffer_normal by done.
  rewrite Hb. simpl default. unfold trim. rewrite length_app, Hlen.
  simpl length. replace (cap + 1 - cap)%nat with 1%nat by lia. reflexivity.
Qed.

(** An emergency goes to the head as long as the buffer has room. *)
Lemma addToDisplayBuffer_emergency_room cap buffers displayId notice :
  priority notice = EMERGENCY ->
  (length (default [] (buffers !! displayId)) < cap)%nat ->
  addToDisplayBuffer cap buffers displayId notice !! displayId =
    Some (notice :: default [] (buffers !! displayId)).
Proof.
  intros Hp Hlen. unfold addToDisplayBuffer.
  rewrite bool_decide_eq_true_2 by done. rewrite lookup_insert_eq.
  rewrite trim_fits; [done | simpl; lia].
Qed.

(** On a full buffer the emergency is put at the head and then shifted out
    again: the buffer is what it was. *)
Lemma addToDisplayBuffer_emergency_full cap buffers displayId notice buffer :
  priority notice = EMERGENCY ->
  buffers !! displayId = Some buffer ->
  length buffer = cap ->
  addToDisplayBuffer cap buffers displayId notice !! displayId = Some buffer.
Proof.
  intros Hp Hb Hlen. unfold addToDisplayBuffer.
  rewrite bool_decide_eq_true_2 by done. rewrite lookup_insert_eq.
  rewrite Hb. simpl default. unfold trim. simpl length. rewrite Hlen.
  replace (S cap - cap)%nat with 1%nat by lia. reflexivity.
Qed.

Definition routine (id : string) : ScheduledNotice :=
  {| noticeId := id; title := "Canteen menu"; content := "";
     priority := NORMAL; visibleFrom := 0; visibleUntil := 1000;
     targetAudience := []; channels := ["web"]; createdAt := 0;
     retryCount := 0; maxRetries := 3 |}.

Definition alarm : ScheduledNotice :=
  {| noticeId := "alarm"; title := "Evacuate"; content := "";
     priority := EMERGENCY; visibleFrom := 0; visibleUntil := 1000;
     targetAudience := ["all-users"]; channels := ["web"]; createdAt := 0;
     retryCount := 0; maxRetries := 5 |}.

(** The web buffer holding [bufferSize] routine notices. *)
Definition fullWeb : gmap string (list ScheduledNotice) :=
  {[ "web" := replicate (bufferSize constructor) (routine "menu") ]}.

(** C8 at a failing input.  The buffer of channel [web] holds 100 routine
    notices; adding the emergency [alarm] leaves the buffer as it was, so
    the emergency is not in it: it was evicted by its own insertion. *)
Theorem emergency_evicted_from_full_buffer :
  addToDisplayBuffer (bufferSize constructor) fullWeb "web" alarm !! "web"
    = Some (replicate 100 (routine "menu")) /\
  (forall buffer,
     addToDisplayBuffer (bufferSize constructor) fullWeb "web" alarm !! "web"
       = Some buffer ->
     (alarm ∉ buffer) /\ head buffer = Some (routine "menu")).
Proof.
  assert (H : addToDisplayBuffer (bufferSize constructor) fullWeb "web" alarm
              !! "web" = Some (replicate 100 (routine "menu"))).
  { apply addToDisplayBuffer_emergency_full; [done | | ].
    - unfold fullWeb. apply lookup_singleton_eq.
    - apply length_replicate. }
  split; [exact H|]. intros buffer Hb.
  assert (buffer = replicate 100 (routine "menu")) as -> by congruence.
  split; [|reflexivity].
  intros Hin. apply elem_of_replicate in Hin as [Heq _]. discriminate Heq.
Qed.

End BufferFacts.

Section WheelFacts.
Import Scheduler.

(** [n] ticks of the wheel, one second apart, the first at [now + 1000]. *)
Fixpoint ticks (n : nat) (st : Sched) (now : Z) : Sched :=
  match n with
  | O => st
  | S n' => ticks n' (processTimerWheel st (now + 1000)) (now + 1000)
  end.

(** The periodic scan never selects a notice whose window has closed. *)
Lemma toActivate_excludes_expired q now notice :
  visibleUntil notice <= now -> notice ∉ toActivate q now.
Proof.
  intros Hexp Hin. unfold toActivate in Hin.
  apply list_elem_of_filter in Hin as [[_ Hlt] _]. lia.
Qed.

(** A notice whose window is wholly in the past when it is scheduled. *)
Definition stale (now : Z) : ScheduledNotice :=
  {| noticeId := "stale"; title := "Yesterday"; content := "";
     priority := NORMAL;
     visibleFrom := now - 30000; visibleUntil := now - 10000;
     targetAudience := ["u1"]; channels := ["web"]; createdAt := 0;
     retryCount := 0; maxRetries := 3 |}.

(** The scheduler after a minute of ticks, then [scheduleNotice] of the
    stale notice at time 60000. *)
Definition staleScheduled : Sched :=
  scheduleNotice (ticks 60 constructor 0) (stale 60000) 60000.

(** C7 at a failing input.  After 60 ticks a notice is scheduled whose
    window closed 10 seconds earlier.  It is not active after scheduling,
    sits in wheel slot 30, and when the wheel comes round to that slot, 3570
    ticks later, the tick activates it: it is in the active set and in the
    buffer of its channel. *)
Theorem expired_notice_activated_by_wheel :
  visibleUntil (stale 60000) < 60000 /\
  activeNotices staleScheduled !! "stale" = None /\
  timerWheel staleScheduled !! 30 = Some [stale 60000] /\
  activeNotices (ticks 3570 staleScheduled 60000) !! "stale"
    = Some (stale 60000) /\
  displayBuffers (ticks 3570 staleScheduled 60000) !! "web"
    = Some [stale 60000].
Proof.
  split; [reflexivity|].
  split; [vm_compute; reflexivity|].
  split; [vm_compute; reflexivity|].
  split; vm_compute; reflexivity.
Qed.

End WheelFacts.

(** ** The dispatch queue as a binary heap *)

Section HeapFacts.
Import Scheduler.

(** The order of the queue: priority ordinal first, then [visibleFrom]. *)
Definition keyLe (a b : ScheduledNotice) : Prop :=
  ord (priority a) < ord (priority b) \/
  (ord (priority a) = ord (priority b) /\ visibleFrom a <= visibleFrom b).

Lemma ord_inj p p' : ord p = ord p' -> p = p'.
Proof. destruct p, p'; simpl; intros H; try reflexivity; lia. Qed.

Lemma keyLe_refl a : keyLe a a.
Proof. right. lia. Qed.

Lemma keyLe_trans a b c : keyLe a b -> keyLe b c -> keyLe a c.
Proof. unfold keyLe. lia. Qed.

Lemma keyLe_total a b : keyLe a b \/ keyLe b a.
Proof. unfold keyLe. lia. Qed.

Lemma comparePriority_neg a b : comparePriority a b < 0 -> keyLe a b.
Proof.
  unfold comparePriority, keyLe. case_bool_decide as Hp; intros H.
  - left. lia.
  - right. rewrite Hp. lia.
Qed.

Lemma comparePriority_nonneg a b : ~ comparePriority a b < 0 -> keyLe b a.
Proof.
  unfold comparePriority, keyLe. case_bool_decide as Hp; intros H.
  - left. assert (ord (priority a) <> ord (priority b))
      by (intros E; by apply Hp, ord_inj). lia.
  - right. rewrite Hp. lia.
Qed.

Create HintDb heap.
#[local] Hint Resolve keyLe_refl keyLe_trans comparePriority_neg
  comparePriority_nonneg : heap.

(** *** Exchanging two cells *)

Lemma lookup_exchange (q : Queue) i j a b k :
  q !! i = Some a -> q !! j = Some b ->
  <[j := a]> (<[i := b]> q) !! k =
    if decide (k = j) then Some a
    else if decide (k = i) then Some b else q !! k.
Proof.
  intros Hi Hj.
  pose proof (lookup_lt_Some _ _ _ Hi). pose proof (lookup_lt_Some _ _ _ Hj).
  destruct (decide (k = j)) as [->|Hkj].
  - apply list_lookup_insert_eq. by rewrite length_insert.
  - rewrite list_lookup_insert_ne by done.
    destruct (decide (k = i)) as [->|Hki].
    + by apply list_lookup_insert_eq.
    + by rewrite list_lookup_insert_ne.
Qed.

Lemma length_exchange (q : Queue) i j a b :
  length (<[j := a]> (<[i := b]> q)) = length q.
Proof. by rewrite !length_insert. Qed.

(** *** The recursion bounds are never reached *)

Lemma heapifyUp_rec_enough : forall fuel fuel' (q : Queue) index,
  (index <= fuel)%nat -> (index <= fuel')%nat ->
  heapifyUp_rec fuel q index = heapifyUp_rec fuel' q index.
Proof.
  induction fuel as [|fuel IH]; intros fuel' q index H H'.
  - assert (index = 0%nat) as -> by lia. destruct fuel'; reflexivity.
  - destruct fuel' as [|fuel'].
    + assert (index = 0%nat) as -> by lia. reflexivity.
    + cbn [heapifyUp_rec]. case_bool_decide as H0; [done|]. cbv zeta.
      destruct (q !! index) as [current|]; [|done].
      destruct (q !! ((index - 1) / 2)%nat) as [parent|]; [|done].
      case_bool_decide; [|done]. apply IH; lia.
Qed.

(** The equation of [heapifyUp] in the source. *)
Lemma heapifyUp_unfold (q : Queue) index :
  heapifyUp q index =
    if bool_decide (index = 0%nat) then q
    else
      let parentIndex := ((index - 1) / 2)%nat in
      match q !! index, q !! parentIndex with
      | Some current, Some parent =>
          if bool_decide (comparePriority current parent < 0)
          then heapifyUp
                 (<[parentIndex := current]> (<[index := parent]> q))
                 parentIndex
          else q
      | _, _ => q
      end.
Proof.
  unfold heapifyUp. destruct index as [|n]; [reflexivity|].
  cbn [heapifyUp_rec]. rewrite bool_decide_eq_false_2 by lia.
  cbv zeta.
  destruct (q !! S n) as [current|]; [|done].
  destruct (q !! ((S n - 1) / 2)%nat) as [parent|]; [|done].
  case_bool_decide; [|done]. apply heapifyUp_rec_enough; lia.
Qed.

Lemma smallestOf_cases (q : Queue) index :
  smallestOf q index = index \/
  ((smallestOf q index = (2 * index + 1)%nat \/
    smallestOf q index = (2 * index + 2)%nat) /\
   (smallestOf q index < length q)%nat).
Proof.
  unfold smallestOf.
  destruct (q !! (2 * index + 1)%nat) as [l|] eqn:El;
    destruct (q !! index) as [s|] eqn:Es; cbv zeta;
    try (destruct (q !! (2 * index + 2)%nat) as [r|] eqn:Er); auto;
    repeat case_bool_decide;
    repeat match goal with
           | |- context [?l !! ?k] =>
               lazymatch goal with
               | H : l !! k = _ |- _ => rewrite H
               end
           | |- context [bool_decide ?P] => destruct (bool_decide P)
           end;
    auto;
    repeat match goal with
           | H : _ !! _ = Some _ |- _ => apply lookup_lt_Some in H
           end;
    right; (split; [auto | lia]).
Qed.

Lemma heapifyDown_rec_enough : forall fuel fuel' (q : Queue) index,
  (length q <= fuel + index)%nat -> (length q <= fuel' + index)%nat ->
  heapifyDown_rec fuel q index = heapifyDown_rec fuel' q index.
Proof.
  induction fuel as [|fuel IH]; intros fuel' q index H H'.
  - destruct fuel' as [|fuel']; [done|]. cbn [heapifyDown_rec]. cbv zeta.
    destruct (smallestOf_cases q index) as [E | [[E|E] Hlt]];
      rewrite E in *; try lia; by rewrite bool_decide_eq_false_2 by auto.
  - destruct fuel' as [|fuel']; cbn [heapifyDown_rec]; cbv zeta.
    + destruct (smallestOf_cases q index) as [E | [[E|E] Hlt]];
        rewrite E in *; try lia; by rewrite bool_decide_eq_false_2 by auto.
    + case_bool_decide as Hne; [|done].
      destruct (q !! index) as [temp|]; [|done].
      destruct (q !! smallestOf q index) as [s|]; [|done].
      destruct (smallestOf_cases q index) as [E | [E Hlt]]; [done|].
      apply IH; rewrite length_exchange; lia.
Qed.

(** The equation of [heapifyDown] in the source. *)
Lemma heapifyDown_unfold (q : Queue) index :
  heapifyDown q index =
    let smallest := smallestOf q index in
    if bool_decide (smallest <> index) then
      match q !! index, q !! smallest with
      | Some temp, Some s =>
          heapifyDown (<[smallest := temp]> (<[index := s]> q)) smallest
      | _, _ => q
      end
    else q.
Proof.
  unfold heapifyDown. cbv zeta.
  destruct (length q) as [|n] eqn:Hlen.
  - cbn [heapifyDown_rec].
    destruct (smallestOf_cases q index) as [E | [_ Hlt]]; [|lia].
    rewrite E. by rewrite bool_decide_eq_false_2 by auto.
  - cbn [heapifyDown_rec].
    case_bool_decide as Hne; [|done].
    destruct (q !! index) as [temp|]; [|done].
    destruct (q !! smallestOf q index) as [s|]; [|done].
    rewrite length_exchange, Hlen.
    destruct (smallestOf_cases q index) as [E | [E Hlt]]; [done|].
    apply heapifyDown_rec_enough; rewrite length_exchange; lia.
Qed.

(** *** The heap order and its two weakenings *)

(** Every cell is at least its parent. *)
Definition heapOrdered (q : Queue) : Prop :=
  forall j x p, (0 < j)%nat ->
    q !! j = Some x -> q !! ((j - 1) / 2)%nat = Some p -> keyLe p x.

(** The order may fail only between cell [i] and its parent; the children
    of [i] are at least the parent of [i].  This is what [heapifyUp]
    repairs. *)
Definition upOk (q : Queue) (i : nat) : Prop :=
  (forall j x p, (0 < j)%nat -> j <> i ->
     q !! j = Some x -> q !! ((j - 1) / 2)%nat = Some p -> keyLe p x) /\
  (forall j x g, (0 < i)%nat -> (0 < j)%nat -> ((j - 1) / 2)%nat = i ->
     q !! j = Some x -> q !! ((i - 1) / 2)%nat = Some g -> keyLe g x).

(** The order may fail only between cell [i] and its children; the
    children of [i] are at least the parent of [i].  This is what
    [heapifyDown] repairs. *)
Definition downOk (q : Queue) (i : nat) : Prop :=
  (forall j x p, (0 < j)%nat -> ((j - 1) / 2)%nat <> i ->
     q !! j = Some x -> q !! ((j - 1) / 2)%nat = Some p -> keyLe p x) /\
  (forall j x g, (0 < i)%nat -> (0 < j)%nat -> ((j - 1) / 2)%nat = i ->
     q !! j = Some x -> q !! ((i - 1) / 2)%nat = Some g -> keyLe g x).

(** Rewriting a lookup in an exchanged queue, the index comparisons being
    settled by arithmetic. *)
Ltac exchange_lookup H Hi Hj :=
  rewrite (lookup_exchange _ _ _ _ _ _ Hi Hj) in H;
  repeat (first [ rewrite decide_True in H by lia
                | rewrite decide_False in H by lia ]).

Lemma heapifyUp_rec_ordered : forall fuel (q : Queue) i,
  (i <= fuel)%nat -> (i < length q)%nat -> upOk q i ->
  heapOrdered (heapifyUp_rec fuel q i).
Proof.
  induction fuel as [|fuel IH]; intros q i Hfuel Hlen [HA HB].
  - intros j x p Hj Hx Hp. apply (HA j); [done | lia | done | done].
  - cbn [heapifyUp_rec]. case_bool_decide as Hi0.
    { intros j x p Hj Hx Hp. apply (HA j); [done | lia | done | done]. }
    cbv zeta.
    destruct (lookup_lt_is_Some_2 q i Hlen) as [c Hc].
    destruct (lookup_lt_is_Some_2 q ((i - 1) / 2)%nat) as [pv Hpv]; [lia|].
    rewrite Hc, Hpv. case_bool_decide as Hcmp.
    + assert (Hcp : keyLe c pv) by auto with heap.
      apply IH; [lia | rewrite length_exchange; lia |]. split.
      * intros j x p Hj Hne Hx Hp.
        destruct (decide (j = i)) as [->|Hji].
        { exchange_lookup Hx Hc Hpv. exchange_lookup Hp Hc Hpv.
          by simplify_eq. }
        exchange_lookup Hx Hc Hpv.
        destruct (decide (((j - 1) / 2)%nat = ((i - 1) / 2)%nat)) as [Hs|Hs].
        { rewrite Hs in Hp. exchange_lookup Hp Hc Hpv. simplify_eq.
          eapply keyLe_trans; [exact Hcp|].
          apply (HA j); [done | done | done | by rewrite Hs]. }
        destruct (decide (((j - 1) / 2)%nat = i)) as [Hpi|Hpi].
        { rewrite Hpi in Hp. exchange_lookup Hp Hc Hpv. simplify_eq.
          apply (HB j); [lia | done | done | done | done]. }
        exchange_lookup Hp Hc Hpv. by apply (HA j).
      * intros j x g Hpos Hj Hpar Hx Hg.
        exchange_lookup Hg Hc Hpv.
        assert (Hgp : keyLe g pv) by (apply (HA ((i - 1) / 2)%nat); [lia | lia | done | done]).
        destruct (decide (j = i)) as [->|Hji].
        { exchange_lookup Hx Hc Hpv. by simplify_eq. }
        exchange_lookup Hx Hc Hpv.
        eapply keyLe_trans; [exact Hgp|].
        apply (HA j); [done | done | done | by rewrite Hpar].
    + assert (Hpc : keyLe pv c) by auto with heap.
      intros j x p Hj Hx Hp.
      destruct (decide (j = i)) as [->|Hji]; [by simplify_eq|].
      by apply (HA j).
Qed.

(** What [smallestOf] returns: the cell itself or one of its children
    inside the queue, holding a notice that is at most the cell and at most
    each of its children. *)
Lemma smallestOf_least (q : Queue) i v :
  q !! i = Some v ->
  exists sv, q !! smallestOf q i = Some sv /\ keyLe sv v /\
    (forall j x, (0 < j)%nat -> ((j - 1) / 2)%nat = i ->
       q !! j = Some x -> keyLe sv x).
Proof.
  intros Hv. unfold smallestOf. rewrite Hv.
  assert (Hkids : forall j, (0 < j)%nat -> ((j - 1) / 2)%nat = i ->
            j = (2 * i + 1)%nat \/ j = (2 * i + 2)%nat) by (intros; lia).
  destruct (q !! (2 * i + 1)%nat) as [l|] eqn:El.
  - case_bool_decide as Hl.
    + assert (keyLe l v) by auto with heap.
      rewrite El.
      destruct (q !! (2 * i + 2)%nat) as [r|] eqn:Er.
      * case_bool_decide as Hr.
        -- assert (keyLe r l) by auto with heap.
           exists r. split; [done|]. split; [eauto with heap|].
           intros j x Hj Hp Hx. destruct (Hkids j Hj Hp); simplify_eq;
             auto with heap.
        -- assert (keyLe l r) by auto with heap.
           exists l. split; [done|]. split; [done|].
           intros j x Hj Hp Hx. destruct (Hkids j Hj Hp); simplify_eq;
             auto with heap.
      * exists l. split; [done|]. split; [done|].
        intros j x Hj Hp Hx. destruct (Hkids j Hj Hp); simplify_eq;
          auto with heap.
    + assert (keyLe v l) by auto with heap.
      rewrite Hv.
      destruct (q !! (2 * i + 2)%nat) as [r|] eqn:Er.
      * case_bool_decide as Hr.
        -- assert (keyLe r v) by auto with heap.
           exists r. split; [done|]. split; [done|].
           intros j x Hj Hp Hx. destruct (Hkids j Hj Hp); simplify_eq;
             eauto with heap.
        -- assert (keyLe v r) by auto with heap.
           exists v. split; [done|]. split; [auto with heap|].
           intros j x Hj Hp Hx. destruct (Hkids j Hj Hp); simplify_eq;
             auto with heap.
      * exists v. split; [done|]. split; [auto with heap|].
        intros j x Hj Hp Hx. destruct (Hkids j Hj Hp); simplify_eq;
          auto with heap.
  - rewrite Hv.
    assert (q !! (2 * i + 2)%nat = None) as ->.
    { apply lookup_ge_None. apply lookup_ge_None in El. lia. }
    exists v. split; [done|]. split; [auto with heap|].
    intros j x Hj Hp Hx. destruct (Hkids j Hj Hp); simplify_eq.
    apply lookup_ge_None in El. apply lookup_lt_Some in Hx. lia.
Qed.

Lemma heapifyDown_rec_ordered : forall fuel (q : Queue) i,
  (length q <= fuel + i)%nat -> downOk q i ->
  heapOrdered (heapifyDown_rec fuel q i).
Proof.
  induction fuel as [|fuel IH]; intros q i Hfuel [HA HB].
  - cbn [heapifyDown_rec]. intros j x p Hj Hx Hp.
    apply (HA j); [done | | done | done].
    apply lookup_lt_Some in Hx. lia.
  - cbn [heapifyDown_rec]. cbv zeta. case_bool_decide as Hne.
    + destruct (smallestOf_cases q i) as [E | [Hkid Hlt]]; [done|].
      set (s := smallestOf q i) in *.
      destruct (lookup_lt_is_Some_2 q i) as [v Hv]; [lia|].
      destruct (smallestOf_least q i v Hv) as (sv & Hsv & Hle & Hmin).
      fold s in Hsv. rewrite Hv, Hsv.
      assert (Hps : ((s - 1) / 2)%nat = i) by lia.
      apply IH; [rewrite length_exchange; lia|]. split.
      * intros j x p Hj Hpne Hx Hp.
        destruct (decide (j = s)) as [->|Hjs].
        { rewrite Hps in Hp. exchange_lookup Hx Hv Hsv.
          exchange_lookup Hp Hv Hsv. by simplify_eq. }
        destruct (decide (j = i)) as [->|Hji].
        { exchange_lookup Hx Hv Hsv. exchange_lookup Hp Hv Hsv. simplify_eq.
          apply (HB s); [done | lia | done | done | done]. }
        exchange_lookup Hx Hv Hsv.
        destruct (decide (((j - 1) / 2)%nat = i)) as [Hpi|Hpi].
        { rewrite Hpi in Hp. exchange_lookup Hp Hv Hsv. simplify_eq.
          by apply (Hmin j). }
        exchange_lookup Hp Hv Hsv. by apply (HA j).
      * intros j x g Hpos Hj Hpar Hx Hg.
        rewrite Hps in Hg. exchange_lookup Hg Hv Hsv.
        exchange_lookup Hx Hv Hsv. simplify_eq.
        apply (HA j); [done | lia | done | by rewrite Hpar].
    + intros j x p Hj Hx Hp.
      destruct (decide (((j - 1) / 2)%nat = i)) as [Hpi|Hpi];
        [|by apply (HA j)].
      rewrite Hpi in Hp.
      destruct (smallestOf_least q i p Hp) as (sv & Hsv & _ & Hmin).
      rewrite Hne, Hp in Hsv. simplify_eq. by apply (Hmin j).
Qed.

(** In a heap the head is at most every element. *)
Lemma heapOrdered_head_least (q : Queue) r :
  heapOrdered q -> q !! 0%nat = Some r ->
  forall x, x ∈ q -> keyLe r x.
Proof.
  intros Hq Hr x Hin. apply list_elem_of_lookup in Hin as [j Hj].
  revert x Hj. induction (lt_wf j) as [j _ IH]. intros x Hj.
  destruct (decide (j = 0%nat)) as [->|Hj0].
  - simplify_eq. apply keyLe_refl.
  - pose proof (lookup_lt_Some _ _ _ Hj) as Hlt.
    destruct (lookup_lt_is_Some_2 q ((j - 1) / 2)%nat) as [p Hp]; [lia|].
    eapply keyLe_trans.
    + apply (IH ((j - 1) / 2)%nat); [lia | exact Hp].
    + apply (Hq j); [lia | done | done].
Qed.

(** *** The heap operations permute the queue *)

Lemma heapifyUp_rec_perm : forall fuel (q : Queue) i,
  heapifyUp_rec fuel q i ≡ₚ q.
Proof.
  induction fuel as [|fuel IH]; intros q i; [done|].
  cbn [heapifyUp_rec]. case_bool_decide; [done|]. cbv zeta.
  destruct (q !! i) as [c|] eqn:Hc; [|done].
  destruct (q !! ((i - 1) / 2)%nat) as [pv|] eqn:Hpv; [|done].
  case_bool_decide; [|done].
  rewrite IH. by apply Permutation_insert_swap.
Qed.

Lemma heapifyDown_rec_perm : forall fuel (q : Queue) i,
  heapifyDown_rec fuel q i ≡ₚ q.
Proof.
  induction fuel as [|fuel IH]; intros q i; [done|].
  cbn [heapifyDown_rec]. cbv zeta. case_bool_decide; [|done].
  destruct (q !! i) as [v|] eqn:Hv; [|done].
  destruct (q !! smallestOf q i) as [sv|] eqn:Hsv; [|done].
  rewrite IH. by apply Permutation_insert_swap.
Qed.

(** *** Insertion *)

Lemma insertIntoPriorityQueue_perm (q : Queue) notice :
  insertIntoPriorityQueue q notice ≡ₚ notice :: q.
Proof.
  unfold insertIntoPriorityQueue, heapifyUp. rewrite heapifyUp_rec_perm.
  by rewrite Permutation_app_comm.
Qed.

Lemma insertIntoPriorityQueue_ordered (q : Queue) notice :
  heapOrdered q -> heapOrdered (insertIntoPriorityQueue q notice).
Proof.
  intros Hq. unfold insertIntoPriorityQueue, heapifyUp.
  rewrite length_app. simpl length.
  replace (length q + 1 - 1)%nat with (length q) by lia.
  apply heapifyUp_rec_ordered; [done | rewrite length_app; simpl; lia |].
  split.
  - intros j x p Hj Hne Hx Hp.
    assert (j < length q)%nat.
    { apply lookup_lt_Some in Hx. rewrite length_app in Hx. simpl in Hx. lia. }
    rewrite lookup_app_l in Hx by lia. rewrite lookup_app_l in Hp by lia.
    by apply (Hq j).
  - intros j x g Hpos Hj Hpar Hx Hg.
    apply lookup_lt_Some in Hx. rewrite length_app in Hx. simpl in Hx. lia.
Qed.

(** *** Extraction *)

Lemma pop_snoc (q : Queue) x : pop (q ++ [x]) = q.
Proof.
  unfold pop. rewrite length_app. simpl length.
  replace (length q + 1 - 1)%nat with (length q) by lia.
  apply take_app_length.
Qed.

Lemma getNextNotice_nil : getNextNotice [] = (None, []).
Proof. reflexivity. Qed.

(** On a queue that is not empty [getNextNotice] returns its head and
    leaves a permutation of the rest. *)
Lemma getNextNotice_cons (q : Queue) x q0 :
  q = x :: q0 ->
  exists q', getNextNotice q = (Some x, q') /\ x :: q' ≡ₚ q /\
             (heapOrdered q -> heapOrdered q').
Proof.
  intros ->. unfold getNextNotice. cbn [lookup list_lookup].
  destruct (last (x :: q0)) as [lastNotice|] eqn:Hlast.
  2:{ apply last_None in Hlast. discriminate Hlast. }
  apply last_Some in Hlast as [q1 Hq1]. rewrite Hq1, pop_snoc.
  destruct q1 as [|y q1'].
  - simpl in Hq1. injection Hq1 as -> ->. simpl.
    exists []. split; [done|]. split; [done|]. intros _ j a p Hj Ha.
    by rewrite lookup_nil in Ha.
  - simpl in Hq1. injection Hq1 as <- ->.
    rewrite bool_decide_eq_true_2 by (simpl; lia).
    eexists. split; [reflexivity|]. split.
    + unfold heapifyDown. rewrite heapifyDown_rec_perm. simpl.
      constructor. by rewrite Permutation_app_comm.
    + intros Hq. unfold heapifyDown. apply heapifyDown_rec_ordered; [lia|].
      split; [|intros; lia].
      intros j a p Hj Hpne Ha Hp.
      destruct j as [|j']; [lia|].
      remember ((S j' - 1) / 2)%nat as pj eqn:Epj.
      destruct pj as [|pj]; [done|].
      simpl in Ha, Hp.
      apply (Hq (S j')); [lia | | rewrite <- Epj].
      * simpl. apply lookup_app_l_Some. exact Ha.
      * simpl. apply lookup_app_l_Some. exact Hp.
Qed.

Lemma getNextNotice_length (q q' : Queue) x :
  getNextNotice q = (Some x, q') -> length q = S (length q').
Proof.
  destruct q as [|y q0]; [discriminate|]. intros H.
  destruct (getNextNotice_cons (y :: q0) y q0 eq_refl) as (q1 & H1 & Hp & _).
  rewrite H1 in H. injection H as <- <-. by rewrite <- Hp.
Qed.

(** *** Draining the queue *)

(** Calling [getNextNotice] until it returns [null].  Each call takes one
    notice out, so the length of the queue bounds the number of calls
    ([drain_all] below). *)
Fixpoint drain (fuel : nat) (q : Queue) : list ScheduledNotice :=
  match fuel with
  | O => []
  | S fuel' =>
      match getNextNotice q with
      | (Some notice, q') => notice :: drain fuel' q'
      | (None, _) => []
      end
  end.

Definition drainAll (q : Queue) : list ScheduledNotice := drain (length q) q.

Lemma drain_all : forall fuel (q : Queue),
  (length q <= fuel)%nat -> drain fuel q ≡ₚ q.
Proof.
  induction fuel as [|fuel IH]; intros q Hlen.
  - destruct q; [done | simpl in Hlen; lia].
  - destruct q as [|x q0]; [done|]. cbn [drain].
    destruct (getNextNotice_cons (x :: q0) x q0 eq_refl) as (q' & H & Hp & _).
    rewrite H. rewrite <- Hp. constructor. apply IH.
    apply Permutation_length in Hp. simpl in *. lia.
Qed.

Lemma drain_subset : forall fuel (q : Queue) y, y ∈ drain fuel q -> y ∈ q.
Proof.
  induction fuel as [|fuel IH]; intros q y Hy.
  - by apply not_elem_of_nil in Hy.
  - destruct q as [|x q0]; [by apply not_elem_of_nil in Hy|].
    cbn [drain] in Hy.
    destruct (getNextNotice_cons (x :: q0) x q0 eq_refl) as (q' & H & Hp & _).
    rewrite H in Hy. rewrite <- Hp.
    apply elem_of_cons in Hy as [->|Hy]; [apply list_elem_of_here|].
    apply list_elem_of_further, IH, Hy.
Qed.

Lemma drain_sorted : forall fuel (q : Queue),
  heapOrdered q -> StronglySorted keyLe (drain fuel q).
Proof.
  induction fuel as [|fuel IH]; intros q Hq; [constructor|].
  destruct q as [|x q0]; [constructor|]. cbn [drain].
  destruct (getNextNotice_cons (x :: q0) x q0 eq_refl) as (q' & H & Hp & Hq').
  rewrite H. constructor; [by apply IH, Hq'|].
  apply Forall_forall. intros y Hy.
  apply (heapOrdered_head_least (x :: q0) x Hq eq_refl).
  rewrite <- Hp. apply list_elem_of_further. by eapply drain_subset.
Qed.

(** *** Interleaved scheduling and extraction *)

Inductive HeapCall : Type :=
| CallSchedule (notice : ScheduledNotice) (now : Z)
| CallGetNext.

Definition heapCall (st : Sched) (c : HeapCall) : Sched :=
  match c with
  | CallSchedule notice now => scheduleNotice st notice now
  | CallGetNext => with_queue st (getNextNotice (dispatchQueue st)).2
  end.

Lemma heapOrdered_nil : heapOrdered [].
Proof. intros j x p _ Hx. by rewrite lookup_nil in Hx. Qed.

Lemma scheduleNotice_queue st notice now :
  dispatchQueue (scheduleNotice st notice now)
  = insertIntoPriorityQueue (dispatchQueue st) notice.
Proof. reflexivity. Qed.

Lemma getNextNotice_ordered (q : Queue) :
  heapOrdered q -> heapOrdered (getNextNotice q).2.
Proof.
  intros Hq. destruct q as [|x q0]; [done|].
  destruct (getNextNotice_cons (x :: q0) x q0 eq_refl) as (q' & H & _ & Hq').
  rewrite H. by apply Hq'.
Qed.

Lemma heapCall_ordered st c :
  heapOrdered (dispatchQueue st) -> heapOrdered (dispatchQueue (heapCall st c)).
Proof.
  intros Hq. destruct c as [notice now|].
  - cbn [heapCall]. rewrite scheduleNotice_queue.
    by apply insertIntoPriorityQueue_ordered.
  - by apply getNextNotice_ordered.
Qed.

Lemma heapCalls_ordered calls : forall st,
  heapOrdered (dispatchQueue st) ->
  heapOrdered (dispatchQueue (foldl heapCall st calls)).
Proof.
  induction calls as [|c calls IH]; intros st Hq; [done|].
  apply IH, heapCall_ordered, Hq.
Qed.

(** C2.  After any interleaving of [scheduleNotice] and [getNextNotice]
    calls on a new scheduler, calling [getNextNotice] until the queue is
    empty returns every queued notice, in non-decreasing order of priority
    ordinal, and in non-decreasing order of [visibleFrom] among notices of
    equal priority. *)
Theorem drain_after_interleaving_sorted (calls : list HeapCall) :
  let q := dispatchQueue (foldl heapCall constructor calls) in
  StronglySorted
    (fun a b =>
       ord (priority a) < ord (priority b) \/
       (ord (priority a) = ord (priority b) /\
        visibleFrom a <= visibleFrom b))
    (drainAll q) /\
  drainAll q ≡ₚ q.
Proof.
  intros q. split.
  - apply (drain_sorted (length q) q).
    apply heapCalls_ordered, heapOrdered_nil.
  - by apply drain_all.
Qed.

End HeapFacts.

(** ** Activation and the pending queue *)

Section QueueFacts.
Import Scheduler.

(** Preemption at a new scheduler breaks the order that [getNextNotice]
    relies on: [unshift] moves every cell one place to the right.  Nine
    routine notices are scheduled, an emergency preempts, and the queue is
    drained: the notice visible from 4 comes out before the one visible
    from 3. *)
Definition routineAt (vf : Z) : ScheduledNotice :=
  {| noticeId := "menu"; title := "Canteen menu"; content := "";
     priority := NORMAL; visibleFrom := vf; visibleUntil := 1000;
     targetAudience := []; channels := []; createdAt := 0;
     retryCount := 0; maxRetries := 3 |}.

Remark preempt_breaks_drain_order :
  let st := foldl (fun s vf => scheduleNotice s (routineAt vf) 0) constructor
                  [1; 4; 2; 5; 6; 3; 7; 8; 9] in
  exists st', preemptWithEmergency st alarm 0 = Returned st' /\
    visibleFrom <$> drainAll (dispatchQueue st')
      = [0; 1; 2; 4; 3; 5; 6; 7; 8; 9].
Proof. eexists. split; [reflexivity|]. vm_compute. reflexivity. Qed.

(** *** [removeFromQueue] *)

Lemma findIndex_Some id : forall (q : Queue) i,
  findIndex id q = Some i ->
  exists x, q !! i = Some x /\ noticeId x = id.
Proof.
  induction q as [|n q IH]; intros i H; [discriminate|].
  cbn [findIndex] in H. case_bool_decide as Hid.
  - injection H as <-. by exists n.
  - destruct (findIndex id q) as [i'|]; [|discriminate].
    injection H as <-. by apply IH.
Qed.

Lemma findIndex_None id : forall (q : Queue) x,
  findIndex id q = None -> x ∈ q -> noticeId x <> id.
Proof.
  induction q as [|n q IH]; intros x H Hin.
  - by apply not_elem_of_nil in Hin.
  - cbn [findIndex] in H. case_bool_decide as Hid; [discriminate|].
    destruct (findIndex id q) as [i'|] eqn:E; [discriminate|].
    apply elem_of_cons in Hin as [->|Hin]; [done | by apply IH].
Qed.

(** [removeFromQueue] takes out the first entry with the id of the notice
    and leaves a permutation of the others. *)
Lemma removeFromQueue_perm (q : Queue) notice i x :
  findIndex (noticeId notice) q = Some i -> q !! i = Some x ->
  x :: removeFromQueue q notice ≡ₚ q.
Proof.
  intros Hi Hx. unfold removeFromQueue. rewrite Hi.
  pose proof (lookup_lt_Some _ _ _ Hx) as Hlt.
  destruct (last q) as [lastNotice|] eqn:Hlast.
  2:{ apply last_None in Hlast. subst q. simpl in Hlt. lia. }
  apply last_Some in Hlast as [q1 ->]. rewrite pop_snoc.
  rewrite length_app in Hlt. simpl in Hlt.
  case_bool_decide as Hin.
  - unfold heapifyDown. rewrite heapifyDown_rec_perm.
    assert (Hl : (q1 ++ [lastNotice])%list !! length q1 = Some lastNotice)
      by apply list_lookup_middle, eq_refl.
    pose proof (Permutation_insert_swap _ _ _ _ _ Hl Hx) as Hp.
    rewrite insert_app_r_alt in Hp by lia.
    replace (length q1 - length q1)%nat with 0%nat in Hp by lia.
    simpl in Hp. rewrite insert_app_l in Hp by done.
    rewrite <- Hp. apply Permutation_cons_append.
  - assert (i = length q1) as -> by lia.
    rewrite list_lookup_middle in Hx by done. injection Hx as <-.
    apply Permutation_cons_append.
Qed.

Lemma removeFromQueue_distinct (q : Queue) notice :
  NoDup (noticeId <$> q) -> notice ∈ q ->
  NoDup (noticeId <$> removeFromQueue q notice) /\
  (forall m, m ∈ removeFromQueue q notice <->
             m ∈ q /\ noticeId m <> noticeId notice).
Proof.
  intros Hnd Hin.
  destruct (findIndex (noticeId notice) q) as [i|] eqn:Hi.
  2:{ by destruct (findIndex_None _ _ _ Hi Hin). }
  destruct (findIndex_Some _ _ _ Hi) as (x & Hx & Hid).
  pose proof (removeFromQueue_perm q notice i x Hi Hx) as Hp.
  assert (Hnd' : NoDup (noticeId <$> x :: removeFromQueue q notice))
    by by rewrite Hp.
  rewrite fmap_cons in Hnd'. apply NoDup_cons in Hnd' as [Hnotin Hnd'].
  split; [done|]. intros m. split.
  - intros Hm. split; [rewrite <- Hp; by apply list_elem_of_further|].
    intros E. apply Hnotin. rewrite Hid, <- E.
    by apply list_elem_of_fmap_2.
  - intros [Hm Hne]. rewrite <- Hp in Hm.
    apply elem_of_cons in Hm as [->|Hm]; [by rewrite Hid in Hne | done].
Qed.

(** *** The periodic scan *)

(** One step of the [forEach] of [processScheduledNotices]. *)
Definition scanStep (now : Z) (s : Sched) (notice : ScheduledNotice) : Sched :=
  let s1 := activateNotice s notice now in
  with_queue s1 (removeFromQueue (dispatchQueue s1) notice).

Lemma processScheduledNotices_fold st now :
  processScheduledNotices st now
  = foldl (scanStep now) st (toActivate (dispatchQueue st) now).
Proof. reflexivity. Qed.

Lemma scanStep_queue now s notice :
  dispatchQueue (scanStep now s notice)
  = removeFromQueue (dispatchQueue s) notice.
Proof. reflexivity. Qed.

Lemma scanStep_active now s notice :
  activeNotices (scanStep now s notice)
  = <[noticeId notice := notice]> (activeNotices s).
Proof. reflexivity. Qed.

Lemma scan_fold now : forall (l : list ScheduledNotice) (s : Sched),
  NoDup (noticeId <$> dispatchQueue s) ->
  NoDup (noticeId <$> l) ->
  (forall n, n ∈ l -> n ∈ dispatchQueue s) ->
  (forall m, m ∈ dispatchQueue (foldl (scanStep now) s l) <->
             m ∈ dispatchQueue s /\ noticeId m ∉ noticeId <$> l) /\
  (forall n, n ∈ l ->
     activeNotices (foldl (scanStep now) s l) !! noticeId n = Some n) /\
  (forall k, k ∉ noticeId <$> l ->
     activeNotices (foldl (scanStep now) s l) !! k = activeNotices s !! k).
Proof.
  induction l as [|n l IH]; intros s Hq Hl Hsub.
  - simpl. split; [|split].
    + intros m. split; [|tauto]. intros Hm. split; [done|].
      apply not_elem_of_nil.
    + intros n Hn. by apply not_elem_of_nil in Hn.
    + done.
  - rewrite fmap_cons in Hl. apply NoDup_cons in Hl as [Hn Hl].
    assert (Hnq : n ∈ dispatchQueue s) by apply Hsub, list_elem_of_here.
    destruct (removeFromQueue_distinct _ n Hq Hnq) as [Hq' Hmem].
    cbn [foldl].
    destruct (IH (scanStep now s n)) as (IH1 & IH2 & IH3).
    { by rewrite scanStep_queue. }
    { done. }
    { intros n' Hn'. rewrite scanStep_queue. apply Hmem. split.
      - by apply Hsub, list_elem_of_further.
      - intros E. apply Hn. rewrite <- E. by apply list_elem_of_fmap_2. }
    split; [|split].
    + intros m. rewrite IH1, scanStep_queue, Hmem, fmap_cons, not_elem_of_cons.
      tauto.
    + intros n' Hn'. apply elem_of_cons in Hn' as [->|Hn']; [|by apply IH2].
      rewrite IH3 by done. rewrite scanStep_active. apply lookup_insert_eq.
    + intros k Hk. rewrite fmap_cons in Hk.
      apply not_elem_of_cons in Hk as [Hkn Hk].
      rewrite IH3 by done. rewrite scanStep_active.
      by apply lookup_insert_ne.
Qed.

(** The queue holds no entry with the given id. *)
Definition noPendingEntry (st : Sched) (id : string) : Prop :=
  forall m, m ∈ dispatchQueue st -> noticeId m <> id.

(** C6, as the claim has it, fails: after a successful
    [preemptWithEmergency] on a new scheduler the emergency is active and
    the queue holds an entry with its id. *)
Lemma preempt_leaves_entry_in_queue :
  exists st',
    preemptWithEmergency constructor alarm 0 = Returned st' /\
    activeNotices st' !! "alarm" = Some alarm /\
    ~ noPendingEntry st' "alarm".
Proof.
  eexists. split; [reflexivity|]. split; [reflexivity|].
  intros H. apply (H alarm); [|reflexivity].
  cbn. apply list_elem_of_here.
Qed.

(** The wheel tick does not touch the queue either: a notice scheduled two
    seconds ahead is activated by the second tick and is still queued. *)
Remark wheel_tick_leaves_entry_in_queue :
  let st := ticks 2 (scheduleNotice constructor (routineAt 2000) 0) 0 in
  activeNotices st !! "menu" = Some (routineAt 2000) /\
  dispatchQueue st = [routineAt 2000].
Proof. split; vm_compute; reflexivity. Qed.

(** C6, as the code has it.  When the entries of the queue have distinct
    ids, every notice that the periodic scan selects is active after the
    scan and the queue holds no entry with its id.  A successful
    [preemptWithEmergency] instead puts the emergency at the front of the
    queue and leaves it there after activating it. *)
Theorem scan_removes_activated_preempt_enqueues
    (st : Sched) (now : Z) (notice emergency : ScheduledNotice) :
  NoDup (noticeId <$> dispatchQueue st) ->
  notice ∈ toActivate (dispatchQueue st) now ->
  priority emergency = EMERGENCY ->
  (activeNotices (processScheduledNotices st now) !! noticeId notice
     = Some notice /\
   noPendingEntry (processScheduledNotices st now) (noticeId notice)) /\
  (exists st',
     preemptWithEmergency st emergency now = Returned st' /\
     activeNotices st' !! noticeId emergency = Some emergency /\
     dispatchQueue st' = emergency :: dispatchQueue st).
Proof.
  intros Hq Hin Hem. split.
  - rewrite processScheduledNotices_fold.
    destruct (scan_fold now (toActivate (dispatchQueue st) now) st)
      as (H1 & H2 & _).
    + done.
    + eapply sublist_NoDup; [exact Hq|].
      apply fmap_sublist, sublist_filter.
    + intros n Hn. unfold toActivate in Hn.
      by apply list_elem_of_filter in Hn as [_ Hn].
    + split; [by apply H2|].
      intros m Hm E. apply H1 in Hm as [_ Hm]. apply Hm. rewrite E.
      by apply list_elem_of_fmap_2.
  - unfold preemptWithEmergency. rewrite bool_decide_eq_false_2 by auto.
    eexists. split; [reflexivity|]. split; [|reflexivity].
    cbn. apply lookup_insert_eq.
Qed.

Lemma scan_removes_activated_preempt_enqueues_witness :
  (activeNotices
     (processScheduledNotices (scheduleNotice constructor (routineAt 0) 0) 500)
     !! noticeId (routineAt 0) = Some (routineAt 0) /\
   noPendingEntry
     (processScheduledNotices (scheduleNotice constructor (routineAt 0) 0) 500)
     (noticeId (routineAt 0))) /\
  (exists st',
     preemptWithEmergency (scheduleNotice constructor (routineAt 0) 0)
       alarm 500 = Returned st' /\
     activeNotices st' !! noticeId alarm = Some alarm /\
     dispatchQueue st'
       = alarm :: dispatchQueue (scheduleNotice constructor (routineAt 0) 0)).
Proof.
  apply (scan_removes_activated_preempt_enqueues
           (scheduleNotice constructor (routineAt 0) 0) 500
           (routineAt 0) alarm).
  - vm_compute. apply NoDup_singleton.
  - vm_compute. apply list_elem_of_here.
  - reflexivity.
Defined.

End QueueFacts.

(** * Further properties of the lifecycle state machine *)

Section LifecycleQueryFacts.
Import Lifecycle.

(** The guards read the event, the role and the time stamp of the input,
    nothing else. *)
Lemma evaluateGuards_reads fromS toS inp inp' ctx :
  event inp = event inp' -> userRole inp = userRole inp' ->
  timestamp inp = timestamp inp' ->
  evaluateGuards fromS toS inp ctx = evaluateGuards fromS toS inp' ctx.
Proof.
  destruct inp, inp'. cbn [event userRole timestamp].
  intros -> -> ->. reflexivity.
Qed.

(** X1.  [canTransition] answers true exactly when [transition] with the
    same event, role and time stamp would return a valid record, whoever
    the acting user and whatever the metadata. *)
Theorem canTransition_iff_transition_valid
    st id tid ev role now uid md :
  canTransition st id ev role now = true <->
  exists r st',
    transition st id tid
      {| event := ev; timestamp := now; userId := uid; userRole := role;
         metadata := md |} = Returned (r, st') /\
    isValid r = true.
Proof.
  unfold canTransition, transition. cbn [event].
  destruct (noticeStates st !! id) as [cur|]; [|split; [done|]].
  2:{ intros (r & st' & H & _). discriminate H. }
  destruct (noticeContexts st !! id) as [ctx|].
  - destruct (getNextState (transitionTable st) cur ev) as [new|].
    + rewrite (evaluateGuards_reads cur new
                 {| event := ev; timestamp := now; userId := "check";
                    userRole := role; metadata := None |}
                 {| event := ev; timestamp := now; userId := uid;
                    userRole := role; metadata := md |} ctx eq_refl eq_refl
                 eq_refl).
      destruct (allowed _).
      * split; [|done]. intros _. eexists _, _. split; reflexivity.
      * split; [done|]. intros (r & st' & H & Hv).
        injection H as <- _. discriminate Hv.
    + split; [done|]. intros (r & st' & H & Hv).
      injection H as <- _. discriminate Hv.
  - destruct (getNextState (transitionTable st) cur ev) as [new|];
      (split; [done|]); intros (r & st' & H & _); discriminate H.
Qed.

Lemma JsMap_get_elem {K V} `{EqDecision K} (m : JsMap.t K V) k v :
  JsMap.get m k = Some v -> (k, v) ∈ m.
Proof.
  induction m as [|[k' v'] m IH]; [discriminate|]. cbn [JsMap.get].
  case_decide as E.
  - intros [= ->]. subst. apply list_elem_of_here.
  - intros H. apply list_elem_of_further, IH, H.
Qed.

Lemma collect_events (P : NoticeEvent -> bool)
    (row : JsMap.t NoticeEvent NoticeState) : forall acc ev,
  ev ∈ foldl (fun validEvents '(ev, _) =>
                if P ev then (validEvents ++ [ev])%list else validEvents)
             acc row <->
  ev ∈ acc \/ (P ev = true /\ exists s, (ev, s) ∈ row).
Proof.
  induction row as [|[e s] row IH]; intros acc ev; cbn [foldl].
  - split; [auto|]. intros [H | (_ & s & H)]; [done|].
    by apply not_elem_of_nil in H.
  - rewrite IH. destruct (P e) eqn:HP.
    + rewrite elem_of_app, list_elem_of_singleton. split.
      * intros [[H | ->] | (HP' & s' & H)].
        -- by left.
        -- right. split; [done|]. exists s. apply list_elem_of_here.
        -- right. split; [done|]. exists s'. by apply list_elem_of_further.
      * intros [H | (HP' & s' & H)]; [by left; left|].
        apply elem_of_cons in H as [[= -> ->] | H]; [by left; right|].
        right. eauto.
    + split.
      * intros [H | (HP' & s' & H)]; [by left|].
        right. split; [done|]. exists s'. by apply list_elem_of_further.
      * intros [H | (HP' & s' & H)]; [by left|].
        apply elem_of_cons in H as [[= -> ->] | H]; [congruence|].
        right. eauto.
Qed.

(** X2.  [getValidTransitions] lists exactly the events that
    [canTransition] accepts for that notice, role and time. *)
Theorem getValidTransitions_exact st id role now ev :
  ev ∈ getValidTransitions st id role now <->
  canTransition st id ev role now = true.
Proof.
  unfold getValidTransitions.
  destruct (noticeStates st !! id) as [cur|] eqn:Hs.
  2:{ unfold canTransition. rewrite Hs. split; [|done].
      intros H. by apply not_elem_of_nil in H. }
  destruct (JsMap.get (transitionTable st) cur) as [row|] eqn:Hrow.
  2:{ unfold canTransition, getNextState. rewrite Hs, Hrow. split; [|done].
      intros H. by apply not_elem_of_nil in H. }
  rewrite (collect_events (fun ev => canTransition st id ev role now)).
  split.
  - intros [H | [H _]]; [by apply not_elem_of_nil in H | done].
  - intros H. right. split; [done|].
    unfold canTransition, getNextState in H. rewrite Hs, Hrow in H.
    destruct (JsMap.get row ev) as [s|] eqn:E; [|discriminate].
    exists s. by apply JsMap_get_elem.
Qed.



(** *** Machines reached by calls *)

(** The two calls that change the machine.  An exception leaves the machine
    as it was: [transition] throws before it writes anything. *)
Inductive LifecycleCall : Type :=
| CallInitialize (noticeId : string) (context : NoticeContext)
    (tid : string) (now : Z)
| CallTransition (noticeId tid : string) (input : TransitionInput).

Definition lifecycleCall (st : FSM) (c : LifecycleCall) : FSM :=
  match c with
  | CallInitialize noticeId context tid now =>
      initializeNotice st noticeId context tid now
  | CallTransition noticeId tid input =>
      match transition st noticeId tid input with
      | Returned (_, st') => st'
      | Threw _ => st
      end
  end.

Definition machineAfter (calls : list LifecycleCall) : FSM :=
  foldl lifecycleCall constructor calls.

(** A property of the constructor's machine that every call keeps holds
    after any calls. *)
Lemma machineAfter_ind (P : FSM -> Prop) :
  P constructor ->
  (forall st c, P st -> P (lifecycleCall st c)) ->
  forall calls, P (machineAfter calls).
Proof.
  intros H0 Hstep calls. unfold machineAfter.
  generalize dependent constructor.
  induction calls as [|c calls IH]; intros st Hst; [done|].
  cbn [foldl]. apply IH, Hstep, Hst.
Qed.

(** What a returning [transition] does to the maps and the log. *)
Lemma transition_returned st id tid inp r st' :
  transition st id tid inp = Returned (r, st') ->
  exists cur ctx,
    noticeStates st !! id = Some cur /\ noticeContexts st !! id = Some ctx /\
    t_noticeId r = id /\
    stateLog st' = (stateLog st ++ [r])%list /\
    transitionTable st' = transitionTable st /\
    ((isValid r = false /\ noticeStates st' = noticeStates st /\
      noticeContexts st' = noticeContexts st) \/
     (isValid r = true /\
      noticeStates st' = <[id := toState r]> (noticeStates st) /\
      noticeContexts st' =
        <[id := updateContextAfterTransition ctx (toState r) inp]>
          (noticeContexts st))).
Proof.
  intros Ht. unfold transition in Ht.
  destruct (noticeStates st !! id) as [cur|]; [|discriminate].
  destruct (noticeContexts st !! id) as [ctx|]; [|discriminate].
  exists cur, ctx. split; [done|]. split; [done|].
  destruct (getNextState (transitionTable st) cur (event inp)) as [new|].
  - destruct (allowed _); injection Ht as <- <-; cbn; auto 10.
  - injection Ht as <- <-. cbn. auto 10.
Qed.

(** States and contexts are kept for the same notices. *)
Definition sameNotices (st : FSM) : Prop :=
  forall id, noticeStates st !! id = None <-> noticeContexts st !! id = None.

Lemma lifecycleCall_sameNotices st c :
  sameNotices st -> sameNotices (lifecycleCall st c).
Proof.
  intros Hst id'. destruct c as [id ctx tid now | id tid inp].
  - cbn. destruct (decide (id = id')) as [->|Hne].
    + by rewrite !lookup_insert_eq.
    + rewrite !lookup_insert_ne by done. apply Hst.
  - cbn [lifecycleCall].
    destruct (transition st id tid inp) as [[r st']|msg] eqn:Ht; [|apply Hst].
    destruct (transition_returned _ _ _ _ _ _ Ht)
      as (cur & ctx & Hs & Hc & _ & _ & _ & [(_ & -> & ->) | (_ & -> & ->)]).
    + apply Hst.
    + destruct (decide (id = id')) as [->|Hne].
      * by rewrite !lookup_insert_eq.
      * rewrite !lookup_insert_ne by done. apply Hst.
Qed.

(** The ids that the calls initialise. *)
Fixpoint initialised (calls : list LifecycleCall) : list string :=
  match calls with
  | [] => []
  | CallInitialize noticeId _ _ _ :: calls' => noticeId :: initialised calls'
  | CallTransition _ _ _ :: calls' => initialised calls'
  end.

Lemma initialised_app calls calls' :
  initialised (calls ++ calls') = (initialised calls ++ initialised calls')%list.
Proof.
  induction calls as [|[id ctx tid now | id tid inp] calls IH]; cbn;
    [done | by rewrite IH | done].
Qed.

Lemma machineAfter_snoc calls c :
  machineAfter (calls ++ [c]) = lifecycleCall (machineAfter calls) c.
Proof. unfold machineAfter. by rewrite foldl_app. Qed.

Lemma machineAfter_known calls : forall id,
  is_Some (noticeStates (machineAfter calls) !! id) <-> id ∈ initialised calls.
Proof.
  induction calls as [|c calls IH] using rev_ind; intros id'.
  - cbn. rewrite lookup_empty. split; [by intros [? ?]|].
    intros H. by apply not_elem_of_nil in H.
  - rewrite machineAfter_snoc, initialised_app, elem_of_app, <- IH.
    destruct c as [id ctx tid now | id tid inp]; cbn [lifecycleCall].
    + cbn.
      destruct (decide (id = id')) as [->|Hne].
      * rewrite lookup_insert_eq, list_elem_of_singleton. split; eauto.
      * rewrite lookup_insert_ne by done. rewrite list_elem_of_singleton.
        split; [auto|]. intros [H | H]; [done | congruence].
    + cbn [initialised]. rewrite elem_of_nil.
      destruct (transition _ id tid inp) as [[r st']|msg] eqn:Ht; [|tauto].
      destruct (transition_returned _ _ _ _ _ _ Ht)
        as (cur & ctx & Hs & _ & _ & _ & _ & [(_ & -> & _) | (_ & -> & _)]);
        [tauto|].
      destruct (decide (id = id')) as [->|Hne].
      * rewrite lookup_insert_eq, Hs. split; eauto.
      * rewrite lookup_insert_ne by done. tauto.
Qed.

(** X4.  On a machine reached by calls, [transition] returns a record when
    the notice was initialised by one of the calls, and otherwise throws
    [Notice <id> not found]; the exception about a missing context is never
    thrown. *)
Theorem transition_throws_only_for_unknown calls id tid inp :
  (id ∈ initialised calls /\
   exists r st', transition (machineAfter calls) id tid inp = Returned (r, st'))
  \/
  ((id ∉ initialised calls) /\
   transition (machineAfter calls) id tid inp
   = Threw ("Notice " +:+ id +:+ " not found")).
Proof.
  pose proof (machineAfter_ind sameNotices) as Hsame.
  specialize (Hsame ltac:(intros i; cbn; by rewrite !lookup_empty)
                    lifecycleCall_sameNotices calls id).
  pose proof (machineAfter_known calls id) as Hknown.
  unfold transition.
  destruct (noticeStates (machineAfter calls) !! id) as [cur|] eqn:Hs.
  - left. split; [apply Hknown; eauto|].
    destruct (noticeContexts (machineAfter calls) !! id) as [ctx|] eqn:Hc.
    + destruct (getNextState _ cur (event inp)) as [new|];
        [destruct (allowed _)|]; eauto.
    + destruct Hsame as [_ H]. discriminate (H eq_refl).
  - right. split; [|done]. intros Hin. apply Hknown in Hin as [? ?]. done.
Qed.

(** The last valid record of a notice in the log carries its state. *)
Definition stateInLog (st : FSM) : Prop :=
  forall id s, noticeStates st !! id = Some s ->
    exists r, last (filter (fun t => isValid t = true)
                           (getTransitionHistory st id)) = Some r /\
              toState r = s.

Lemma history_snoc (s : FSM) log t id :
  stateLog s = (log ++ [t])%list ->
  getTransitionHistory s id =
    (filter (fun t => t_noticeId t = id) log ++
     (if decide (t_noticeId t = id) then [t] else []))%list.
Proof.
  intros Hlog. unfold getTransitionHistory. rewrite Hlog, filter_app.
  case_decide.
  - rewrite filter_cons_True by done. by rewrite filter_nil.
  - rewrite filter_cons_False by done. by rewrite filter_nil.
Qed.

Lemma lifecycleCall_stateInLog st c :
  stateInLog st -> stateInLog (lifecycleCall st c).
Proof.
  intros Hst id' s. destruct c as [id ctx tid now | id tid inp].
  - cbn [lifecycleCall initializeNotice logTransition noticeStates].
    erewrite history_snoc by reflexivity. cbn [t_noticeId].
    destruct (decide (id = id')) as [->|Hne].
    + rewrite lookup_insert_eq. intros [= <-].
      rewrite filter_app.
      rewrite filter_cons_True by done. rewrite filter_nil, last_snoc.
      eexists. split; reflexivity.
    + rewrite lookup_insert_ne by done.
      rewrite app_nil_r. apply Hst.
  - cbn [lifecycleCall].
    destruct (transition st id tid inp) as [[r st']|msg] eqn:Ht; [|apply Hst].
    destruct (transition_returned _ _ _ _ _ _ Ht)
      as (cur & ctx & Hs & _ & Hid & Hlog & _ & Hcases).
    rewrite (history_snoc st' _ r id' Hlog). rewrite Hid.
    destruct (decide (id = id')) as [->|Hne].
    + rewrite filter_app.
      destruct Hcases as [(Hv & -> & _) | (Hv & -> & _)].
      * rewrite filter_cons_False by (rewrite Hv; discriminate).
        rewrite filter_nil, app_nil_r. apply Hst.
      * rewrite lookup_insert_eq. intros [= <-].
        rewrite filter_cons_True by done. rewrite filter_nil, last_snoc.
        by exists r.
    + rewrite app_nil_r.
      destruct Hcases as [(_ & -> & _) | (_ & -> & _)]; [apply Hst|].
      rewrite lookup_insert_ne by done. apply Hst.
Qed.

(** X5.  On a machine reached by calls the current state of every notice
    is the target state of the last valid record in its transition
    history: the log alone determines the states. *)
Theorem current_state_is_last_valid_record calls id s :
  getCurrentState (machineAfter calls) id = Some s ->
  exists r,
    last (filter (fun t => isValid t = true)
                 (getTransitionHistory (machineAfter calls) id)) = Some r /\
    toState r = s.
Proof.
  apply (machineAfter_ind stateInLog); [|apply lifecycleCall_stateInLog].
  intros i s' H. cbn in H. by rewrite lookup_empty in H.
Qed.

Lemma current_state_is_last_valid_record_witness :
  exists r,
    last (filter (fun t => isValid t = true)
                 (getTransitionHistory
                    (machineAfter
                       [CallInitialize "n1" sampleContext "trans_0" 0;
                        CallTransition "n1" "trans_1"
                          (mkInput ARCHIVE 1000 "alice" UserRole.PUBLISHER
                                   None)])
                    "n1")) = Some r /\
    toState r = ARCHIVED.
Proof.
  apply (current_state_is_last_valid_record
           [CallInitialize "n1" sampleContext "trans_0" 0;
            CallTransition "n1" "trans_1"
              (mkInput ARCHIVE 1000 "alice" UserRole.PUBLISHER None)]
           "n1" ARCHIVED).
  vm_compute. reflexivity.
Defined.

(** *** The reasons of rejected transitions *)

(** The reasons of the role guards do not mention the 30-day window. *)
Lemma roleCheck_reason (role : string) (ev : NoticeEvent) r :
  match ev with
  | APPROVE =>
      if bool_decide (role ≠ UserRole.MODERATOR)
         && bool_decide (role ≠ UserRole.ADMIN)
      then Some (deny "Only moderators can approve notices") else None
  | REJECT =>
      if bool_decide (role ≠ UserRole.MODERATOR)
         && bool_decide (role ≠ UserRole.ADMIN)
      then Some (deny "Only moderators can reject notices") else None
  | REINSTATE =>
      if bool_decide (role ≠ UserRole.ADMIN)
      then Some (deny "Only admins can reinstate notices") else None
  | SUBMIT =>
      if bool_decide (role = UserRole.USER)
      then Some (deny "Users cannot submit notices directly") else None
  | _ => None
  end = Some r ->
  exists m, r = deny m /\ String.index 0 "30 days" m = None.
Proof.
  destruct ev; try discriminate;
    match goal with
    | |- (if ?b then _ else _) = _ -> _ => destruct b
    end; try discriminate;
    intros [= <-]; eexists; (split; [reflexivity|]); vm_compute; reflexivity.
Qed.

(** When the guards give a reason that mentions 30 days, it is the one of
    the last guard: the notice goes from [ARCHIVED] to [REINSTATED] and the
    actor is not an admin. *)
Lemma evaluateGuards_30_days fromS toS inp ctx msg :
  g_reason (evaluateGuards fromS toS inp ctx) = Some msg ->
  is_Some (String.index 0 "30 days" msg) ->
  fromS = ARCHIVED /\ toS = REINSTATED /\ userRole inp <> UserRole.ADMIN.
Proof.
  unfold evaluateGuards. cbv zeta.
  pose proof (roleCheck_reason (userRole inp) (event inp)) as Hrc.
  destruct (match event inp with
            | SUBMIT => _ | APPROVE => _ | REJECT => _ | REINSTATE => _
            | _ => None
            end) as [r|].
  - destruct (Hrc r eq_refl) as (m & -> & Hm). intros [= <-] [x Hx].
    rewrite Hm in Hx. discriminate Hx.
  - clear Hrc.
    match goal with
    | |- g_reason (if ?b then _ else _) = _ -> _ => destruct b
    end.
    { intros [= <-] [x Hx]. vm_compute in Hx. discriminate Hx. }
    match goal with
    | |- g_reason (if ?b then _ else _) = _ -> _ => destruct b
    end.
    { intros [= <-] [x Hx]. vm_compute in Hx. discriminate Hx. }
    match goal with
    | |- g_reason (if ?b then _ else _) = _ -> _ => destruct b eqn:Hb
    end.
    + intros _ _.
      apply andb_prop in Hb as [Hb H4]. apply andb_prop in Hb as [Hb H3].
      apply andb_prop in Hb as [H1 H2].
      apply bool_decide_eq_true in H1, H2, H4. auto.
    + intros [=].
Qed.

(** For [reinstate] the guards never give a reason other than the one of
    the role guard. *)
Lemma evaluateGuards_reinstate fromS toS inp ctx :
  event inp = REINSTATE ->
  userRole inp <> UserRole.ADMIN ->
  evaluateGuards fromS toS inp ctx = deny "Only admins can reinstate notices".
Proof.
  intros Hev Hrole. unfold evaluateGuards. cbv zeta. rewrite Hev.
  rewrite (bool_decide_eq_true_2 _ Hrole). reflexivity.
Qed.

Lemma reinstated_from_archived ev :
  getNextState initializeTransitionTable ARCHIVED ev = Some REINSTATED ->
  ev = REINSTATE.
Proof. destruct ev; vm_compute; intros H; first [reflexivity | discriminate H]. Qed.

Lemma invalid_transition_reason cur ev :
  String.index 0 "30 days"
    ("Invalid transition from " +:+ state_str cur +:+ " with event "
       +:+ event_str ev) = None.
Proof. destruct cur, ev; vm_compute; reflexivity. Qed.

Lemma transition_reason_not_30_days st id tid inp r st' :
  transitionTable st = initializeTransitionTable ->
  transition st id tid inp = Returned (r, st') ->
  ~ cites30Days r.
Proof.
  intros Htbl Ht (msg & Hr & Hidx). unfold transition in Ht.
  destruct (noticeStates st !! id) as [cur|]; [|discriminate Ht].
  destruct (noticeContexts st !! id) as [ctx|]; [|discriminate Ht].
  rewrite Htbl in Ht.
  destruct (getNextState initializeTransitionTable cur (event inp))
    as [new|] eqn:Hn.
  - destruct (allowed _).
    + injection Ht as <- _. discriminate Hr.
    + injection Ht as <- _. cbn [reason rejected] in Hr.
      destruct (evaluateGuards_30_days _ _ _ _ _ Hr Hidx) as (-> & -> & Hrole).
      apply reinstated_from_archived in Hn.
      rewrite (evaluateGuards_reinstate _ _ _ _ Hn Hrole) in Hr.
      cbn [g_reason deny] in Hr. injection Hr as <-.
      destruct Hidx as [x Hx]. vm_compute in Hx. discriminate Hx.
  - injection Ht as <- _. cbn [reason rejected] in Hr. injection Hr as <-.
    rewrite invalid_transition_reason in Hidx.
    destruct Hidx as [x Hx]. discriminate Hx.
Qed.

(** X6.  Whatever calls are made, no record of the audit log gives a
    reason that mentions the 30-day window: the guard that carries that
    reason never decides a transition of the constructor's table. *)
Theorem log_never_cites_30_days (calls : list LifecycleCall) :
  Forall (fun r => ~ cites30Days r) (stateLog (machineAfter calls)).
Proof.
  apply (machineAfter_ind
           (fun st => transitionTable st = initializeTransitionTable /\
                      Forall (fun r => ~ cites30Days r) (stateLog st))).
  - split; [reflexivity | constructor].
  - intros st c [Htbl Hlog]. destruct c as [id ctx tid now | id tid inp].
    + split; [exact Htbl|]. cbn. apply Forall_app. split; [exact Hlog|].
      constructor; [|constructor].
      intros (msg & Hr & Hidx). cbn in Hr. injection Hr as <-.
      vm_compute in Hidx. destruct Hidx as [? Hidx]. discriminate Hidx.
    + cbn [lifecycleCall].
      destruct (transition st id tid inp) as [[r st']|msg] eqn:Ht;
        [|exact (conj Htbl Hlog)].
      pose proof (transition_reason_not_30_days _ _ _ _ _ _ Htbl Ht) as Hr.
      destruct (transition_returned _ _ _ _ _ _ Ht)
        as (cur & ctx & _ & _ & _ & Hl & Htbl' & _).
      clear Ht.
      split; [by rewrite Htbl'|]. rewrite Hl. apply Forall_app.
      split; [exact Hlog|]. constructor; [exact Hr|constructor].
Qed.

(** X7.  A notice in [APPROVED] or [SCHEDULED] is activated by any role:
    [activate] succeeds and moves it to [ACTIVE] exactly when its
    [visibleFrom], if it has one, is not after the time stamp; otherwise
    the record is invalid with the reason of the time guard. *)
Theorem activate_valid_iff_visible st id tid ts uid role md cur ctx :
  transitionTable st = initializeTransitionTable ->
  noticeStates st !! id = Some cur ->
  cur = APPROVED \/ cur = SCHEDULED ->
  noticeContexts st !! id = Some ctx ->
  exists r st',
    transition st id tid
      {| event := ACTIVATE; timestamp := ts; userId := uid;
         userRole := role; metadata := md |} = Returned (r, st') /\
    (isValid r = true <->
     forall vf, visibleFrom ctx = Some vf -> vf <= ts) /\
    (isValid r = true ->
     toState r = ACTIVE /\ noticeStates st' !! id = Some ACTIVE) /\
    (isValid r = false ->
     reason r = Some "Cannot activate before visible_from time" /\
     noticeStates st' !! id = Some cur).
Proof.
  intros Htbl Hs Hcur Hc. unfold transition. rewrite Hs, Hc, Htbl.
  cbn [event].
  assert (Hn : getNextState initializeTransitionTable cur ACTIVATE
               = Some ACTIVE) by (destruct Hcur as [-> | ->]; reflexivity).
  rewrite Hn.
  assert (Hg : evaluateGuards cur ACTIVE
                 {| event := ACTIVATE; timestamp := ts; userId := uid;
                    userRole := role; metadata := md |} ctx =
               match visibleFrom ctx with
               | Some vf =>
                   if bool_decide (ts < vf)
                   then deny "Cannot activate before visible_from time"
                   else {| allowed := true; g_reason := None |}
               | None => {| allowed := true; g_reason := None |}
               end).
  { unfold evaluateGuards. cbn [event userRole timestamp].
    destruct (visibleFrom ctx) as [vf|]; [destruct (bool_decide (ts < vf))|];
      destruct Hcur as [-> | ->]; reflexivity. }
  rewrite Hg. destruct (visibleFrom ctx) as [vf|].
  - case_bool_decide as Hlt; cbn [allowed deny].
    + eexists _, _. split; [reflexivity|].
      cbn [isValid rejected reason toState g_reason logTransition
           noticeStates].
      split; [|split].
      * split; [intros [=]|]. intros H. specialize (H vf eq_refl). lia.
      * intros [=].
      * intros _. split; [reflexivity | exact Hs].
    + eexists _, _. split; [reflexivity|].
      cbn [isValid reason toState logTransition noticeStates].
      split; [|split].
      * split; [|reflexivity]. intros _ vf' [= <-]. lia.
      * intros _. split; [reflexivity | apply lookup_insert_eq].
      * intros [=].
  - eexists _, _. split; [reflexivity|].
    cbn [isValid reason toState logTransition noticeStates].
    split; [|split].
    + split; [|reflexivity]. intros _ vf' [=].
    + intros _. split; [reflexivity | apply lookup_insert_eq].
    + intros [=].
Qed.

Definition approvedNotice : FSM :=
  {| transitionTable := initializeTransitionTable;
     stateLog := [];
     noticeStates := {[ "n1" := APPROVED ]};
     noticeContexts :=
       {[ "n1" := {| c_id := "n1"; currentState := APPROVED; createdAt := 0;
                     visibleFrom := Some 5000; visibleUntil := None;
                     priority := 3; authorId := "alice";
                     lastModifiedAt := 0 |} ]} |}.

Lemma activate_valid_iff_visible_witness :
  exists r st',
    transition approvedNotice "n1" "trans_9"
      {| event := ACTIVATE; timestamp := 4000; userId := "bob";
         userRole := UserRole.USER; metadata := None |} = Returned (r, st') /\
    (isValid r = true <-> forall vf, Some 5000 = Some vf -> vf <= 4000) /\
    (isValid r = true ->
     toState r = ACTIVE /\ noticeStates st' !! "n1" = Some ACTIVE) /\
    (isValid r = false ->
     reason r = Some "Cannot activate before visible_from time" /\
     noticeStates st' !! "n1" = Some APPROVED).
Proof.
  apply (activate_valid_iff_visible approvedNotice "n1" "trans_9" 4000 "bob"
           UserRole.USER None APPROVED
           {| c_id := "n1"; currentState := APPROVED; createdAt := 0;
              visibleFrom := Some 5000; visibleUntil := None;
              priority := 3; authorId := "alice"; lastModifiedAt := 0 |});
    [reflexivity | reflexivity | left; reflexivity | reflexivity].
Defined.

End LifecycleQueryFacts.

(** ** The scheduler under arbitrary calls *)

Section SchedulerCallFacts.
Import Scheduler.

(** The calls that change a scheduler: the public methods and the two
    timer callbacks, each with the clock reading it sees. *)
Inductive SchedCall : Type :=
| DoSchedule (notice : ScheduledNotice) (now : Z)
| DoGetNext
| DoPreempt (notice : ScheduledNotice) (now : Z)
| DoTick (now : Z)
| DoScan (now : Z)
| DoUpdateStatus (target id : string) (newStatus : DeliveryStatus) (now : Z)
| DoBlackout (start end_ : Z) (stamp : string)
| DoCleanup (now : Z).

(** The scheduler after a call; a call that throws leaves it as it was. *)
Definition schedCall (st : Sched) (c : SchedCall) : Sched :=
  match c with
  | DoSchedule notice now => scheduleNotice st notice now
  | DoGetNext => with_queue st (getNextNotice (dispatchQueue st)).2
  | DoPreempt notice now =>
      match preemptWithEmergency st notice now with
      | Returned st' => st'
      | Threw _ => st
      end
  | DoTick now => processTimerWheel st now
  | DoScan now => processScheduledNotices st now
  | DoUpdateStatus target id newStatus now =>
      updateDeliveryStatus st target id newStatus now
  | DoBlackout start end_ stamp => addBlackoutPeriod st start end_ stamp
  | DoCleanup now => cleanupExpiredNotices st now
  end.

Definition schedAfter (calls : list SchedCall) : Sched :=
  foldl schedCall constructor calls.

Lemma schedAfter_ind (P : Sched -> Prop) :
  P constructor ->
  (forall st c, P st -> P (schedCall st c)) ->
  forall calls, P (schedAfter calls).
Proof.
  intros H0 Hstep calls. unfold schedAfter.
  induction calls as [|c calls IH] using rev_ind; [exact H0|].
  rewrite foldl_app. apply Hstep, IH.
Qed.

(** A property of the scheduler that activation keeps and that does not
    look at the queue, the wheel or the intervals is kept by every call
    that only activates. *)
Lemma foldl_keeps {A} (P : Sched -> Prop) (f : Sched -> A -> Sched) :
  (forall s a, P s -> P (f s a)) ->
  forall (l : list A) s, P s -> P (foldl f s l).
Proof.
  intros Hf l. induction l as [|a l IH]; intros s Hs; [exact Hs|].
  cbn [foldl]. apply IH, Hf, Hs.
Qed.

(** *** Display buffers never exceed their size *)

Definition buffersFit (cap : nat)
    (buffers : gmap string (list ScheduledNotice)) : Prop :=
  map_Forall (fun _ buffer => (length buffer <= cap)%nat) buffers.

Lemma addToDisplayBuffer_fits cap buffers displayId notice :
  buffersFit cap buffers ->
  buffersFit cap (addToDisplayBuffer cap buffers displayId notice).
Proof.
  intros H. unfold addToDisplayBuffer. apply map_Forall_insert_2; [|exact H].
  apply trim_length.
Qed.

Lemma activateNotice_buffers st notice now :
  buffersFit (bufferSize st) (displayBuffers st) ->
  buffersFit (bufferSize (activateNotice st notice now))
             (displayBuffers (activateNotice st notice now)).
Proof.
  intros H. cbn [activateNotice bufferSize displayBuffers].
  generalize dependent (displayBuffers st).
  induction (channels notice) as [|ch chs IH]; intros bufs H; [exact H|].
  cbn [foldl]. apply IH, addToDisplayBuffer_fits, H.
Qed.

Definition fits (st : Sched) : Prop :=
  buffersFit (bufferSize st) (displayBuffers st).

Lemma schedCall_fits st c : fits st -> fits (schedCall st c).
Proof.
  intros H. destruct c as [n now| |n now|now|now|t id s now|a b stamp|now];
    cbn [schedCall].
  - exact H.
  - exact H.
  - unfold preemptWithEmergency. case_bool_decide; [exact H|].
    apply activateNotice_buffers. exact H.
  - unfold processTimerWheel. cbv zeta. cbn [timerWheel].
    destruct (timerWheel st !! _) as [notices|]; [|exact H].
    set (st1 := {| dispatchQueue := dispatchQueue st;
                   currentTick := (currentTick st + 1) `rem` 3600 |}).
    assert (Hf : fits (foldl (fun s notice =>
                                if bool_decide (visibleFrom notice <= now)
                                then activateNotice s notice now else s)
                             st1 notices)).
    { apply (foldl_keeps fits); [|exact H].
      intros s a Hs. case_bool_decide; [|exact Hs].
      apply activateNotice_buffers, Hs. }
    exact Hf.
  - unfold processScheduledNotices.
    apply (foldl_keeps fits); [|exact H].
    intros s a Hs. apply (activateNotice_buffers s a now), Hs.
  - unfold updateDeliveryStatus.
    destruct (deliveryCheckpoints st !! t); exact H.
  - exact H.
  - unfold fits, buffersFit. cbn [cleanupExpiredNotices bufferSize displayBuffers].
    intros d buf Hd. rewrite lookup_fmap in Hd.
    destruct (displayBuffers st !! d) as [buf0|] eqn:E; [|discriminate Hd].
    injection Hd as <-. pose proof (H d buf0 E) as Hl. cbn beta in Hl.
    etrans; [apply length_filter | exact Hl].
Qed.

(** X8.  Whatever calls are made on a new scheduler, no display buffer
    holds more than 100 notices, and so [getDisplayNotices] never returns
    more than 100. *)
Theorem display_buffers_bounded (calls : list SchedCall) :
  map_Forall (fun _ buffer => (length buffer <= 100)%nat)
             (displayBuffers (schedAfter calls)) /\
  forall displayId now,
    (length (getDisplayNotices (schedAfter calls) displayId now) <= 100)%nat.
Proof.
  assert (H : bufferSize (schedAfter calls) = 100%nat /\
              fits (schedAfter calls)).
  { apply (schedAfter_ind (fun st => bufferSize st = 100%nat /\ fits st)).
    - split; [reflexivity|]. intros d buf Hd. cbn in Hd.
      rewrite lookup_empty in Hd. discriminate Hd.
    - intros st c [Hcap Hfit]. split; [|apply schedCall_fits, Hfit].
      rewrite <- Hcap. clear.
      destruct c as [n now| |n now|now|now|t id s now|a b stamp|now];
        cbn [schedCall]; try reflexivity.
      + unfold preemptWithEmergency. case_bool_decide; reflexivity.
      + unfold processTimerWheel. cbv zeta. cbn [timerWheel].
        destruct (timerWheel st !! _) as [notices|]; [|reflexivity].
        cbn [bufferSize].
        apply (foldl_keeps (fun s => bufferSize s = bufferSize st));
          [|reflexivity].
        intros s a Hs. case_bool_decide; exact Hs.
      + unfold processScheduledNotices.
        apply (foldl_keeps (fun s => bufferSize s = bufferSize st));
          [|reflexivity].
        intros s a Hs. exact Hs.
      + unfold updateDeliveryStatus.
        destruct (deliveryCheckpoints st !! t); reflexivity. }
  destruct H as [Hcap Hfit]. unfold fits in Hfit. rewrite Hcap in Hfit.
  split; [exact Hfit|].
  intros d now. unfold getDisplayNotices. cbv zeta.
  destruct (displayBuffers (schedAfter calls) !! d) as [buf|] eqn:E.
  - cbn [default]. pose proof (Hfit d buf E) as Hl. cbn beta in Hl.
    etrans; [apply length_filter | exact Hl].
  - cbn. lia.
Qed.

(** *** Clean-up *)




Lemma delete_all_lookup (ids : list string) :
  forall (active : gmap string ScheduledNotice) k,
    foldl (fun active id => delete id active) active ids !! k
    = if decide (k ∈ ids) then None else active !! k.
Proof.
  induction ids as [|id ids IH]; intros active k.
  - cbn [foldl]. rewrite decide_False; [reflexivity | apply not_elem_of_nil].
  - cbn [foldl]. rewrite IH.
    destruct (decide (k ∈ ids)) as [Hin|Hnin].
    + rewrite decide_True; [reflexivity | by right].
    + destruct (decide (k = id)) as [->|Hne].
      * rewrite decide_True by left. apply lookup_delete_eq.
      * rewrite decide_False.
        -- apply lookup_delete_ne. congruence.
        -- intros Hin. apply elem_of_cons in Hin as [?|?]; done.
Qed.

Lemma expiredIds_spec active now k :
  k ∈ expiredIds active now <->
  exists notice, active !! k = Some notice /\ visibleUntil notice <= now.
Proof.
  unfold expiredIds. rewrite list_elem_of_fmap. split.
  - intros ([k' n] & -> & Hin). apply list_elem_of_filter in Hin as [Hexp Hin].
    apply elem_of_map_to_list in Hin. exists n. split; [exact Hin | exact Hexp].
  - intros (n & Hk & Hexp). exists (k, n). split; [reflexivity|].
    apply list_elem_of_filter. split; [exact Hexp|].
    apply elem_of_map_to_list. exact Hk.
Qed.

(** X10.  After clean-up at [now] the active notices are exactly those
    that were active and whose [visibleUntil] is after [now]. *)
Theorem cleanup_active_exact st now id notice :
  activeNotices (cleanupExpiredNotices st now) !! id = Some notice <->
  activeNotices st !! id = Some notice /\ now < visibleUntil notice.
Proof.
  cbn [cleanupExpiredNotices activeNotices]. rewrite delete_all_lookup.
  destruct (decide (id ∈ expiredIds (activeNotices st) now)) as [Hin|Hnin].
  - apply expiredIds_spec in Hin as (n & Hid & Hexp). split.
    + intros H. discriminate H.
    + intros [H Hlt]. rewrite Hid in H. injection H as ->. lia.
  - split.
    + intros H. split; [exact H|].
      destruct (decide (now < visibleUntil notice)) as [Hlt|Hge]; [exact Hlt|].
      exfalso. apply Hnin, expiredIds_spec. exists notice.
      split; [exact H | lia].
    + intros [H _]. exact H.
Qed.

(** *** Delivery checkpoints *)

(** What holds of every checkpoint filed under target [t]. *)
Definition checkpointOk (t : string) (cp : DeliveryCheckpoint) : Prop :=
  0 <= attempts cp <= 3 /\ targetId cp = t /\ is_Some (nextRetryAt cp).

Definition checkpointsOk
    (cps : gmap string (list DeliveryCheckpoint)) : Prop :=
  map_Forall (fun t checkpoints => Forall (checkpointOk t) checkpoints) cps.

Lemma createDeliveryCheckpoint_ok cps target notice now :
  checkpointsOk cps ->
  checkpointsOk (createDeliveryCheckpoint cps target notice now).
Proof.
  intros H. unfold createDeliveryCheckpoint. cbv zeta.
  apply map_Forall_insert_2; [|exact H].
  apply Forall_app. split.
  - destruct (cps !! target) as [l|] eqn:E; [exact (H target l E)|].
    constructor.
  - constructor; [|constructor].
    split; [cbn; lia|]. split; [reflexivity|]. cbn. eauto.
Qed.

Lemma activateNotice_checkpoints st notice now :
  checkpointsOk (deliveryCheckpoints st) ->
  checkpointsOk (deliveryCheckpoints (activateNotice st notice now)).
Proof.
  intros H. cbn [activateNotice deliveryCheckpoints].
  generalize dependent (deliveryCheckpoints st).
  induction (targetAudience notice) as [|t ts IH]; intros cps H; [exact H|].
  cbn [foldl]. apply IH, createDeliveryCheckpoint_ok, H.
Qed.

Lemma updateCheckpoint_ok t cp newStatus now :
  checkpointOk t cp -> checkpointOk t (updateCheckpoint cp newStatus now).
Proof.
  intros (Ha & Ht & Hn). unfold updateCheckpoint.
  destruct (bool_decide (newStatus = failed)); cbn [andb].
  - case_bool_decide as Hlt.
    + split; [cbn; lia|]. split; [exact Ht|]. cbn. eauto.
    + split; [exact Ha|]. split; [exact Ht | exact Hn].
  - split; [exact Ha|]. split; [exact Ht | exact Hn].
Qed.

Lemma updateFound_ok t id newStatus now checkpoints :
  Forall (checkpointOk t) checkpoints ->
  Forall (checkpointOk t) (updateFound id newStatus now checkpoints).
Proof.
  induction 1 as [|cp rest Hcp Hrest IH]; cbn [updateFound]; [constructor|].
  case_bool_decide.
  - constructor; [apply updateCheckpoint_ok, Hcp | exact Hrest].
  - constructor; [exact Hcp | exact IH].
Qed.

Definition tracked (st : Sched) : Prop :=
  checkpointsOk (deliveryCheckpoints st).

Lemma schedCall_tracked st c : tracked st -> tracked (schedCall st c).
Proof.
  intros H. destruct c as [n now| |n now|now|now|t id s now|a b stamp|now];
    cbn [schedCall].
  - exact H.
  - exact H.
  - unfold preemptWithEmergency. case_bool_decide; [exact H|].
    apply activateNotice_checkpoints. exact H.
  - unfold processTimerWheel. cbv zeta. cbn [timerWheel].
    destruct (timerWheel st !! _) as [notices|]; [|exact H].
    unfold tracked. cbn [deliveryCheckpoints].
    apply (foldl_keeps tracked); [|exact H].
    intros s a Hs. case_bool_decide; [|exact Hs].
    apply activateNotice_checkpoints, Hs.
  - unfold processScheduledNotices.
    apply (foldl_keeps tracked); [|exact H].
    intros s a Hs. apply (activateNotice_checkpoints s a now), Hs.
  - unfold updateDeliveryStatus.
    destruct (deliveryCheckpoints st !! t) as [cps|] eqn:E; [|exact H].
    unfold tracked. cbn [deliveryCheckpoints].
    apply map_Forall_insert_2; [|exact H].
    apply updateFound_ok. exact (H t cps E).
  - exact H.
  - exact H.
Qed.

(** X11.  Whatever calls are made on a new scheduler, every delivery
    checkpoint has between 0 and 3 attempts, is filed under its own target
    and has a retry time. *)
Theorem checkpoint_attempts_bounded (calls : list SchedCall) :
  map_Forall
    (fun t checkpoints =>
       Forall (fun cp => 0 <= attempts cp <= 3 /\ targetId cp = t /\
                         is_Some (nextRetryAt cp)) checkpoints)
    (deliveryCheckpoints (schedAfter calls)).
Proof.
  apply (schedAfter_ind tracked); [|apply schedCall_tracked].
  intros t cps H. cbn in H. rewrite lookup_empty in H. discriminate H.
Qed.

(** *** The timing wheel *)

Lemma activations_keep_wheel now (notices : list ScheduledNotice) st :
  let st' := foldl (fun s notice =>
                      if bool_decide (visibleFrom notice <= now)
                      then activateNotice s notice now else s) st notices in
  timerWheel st' = timerWheel st /\ currentTick st' = currentTick st.
Proof.
  cbv zeta.
  apply (foldl_keeps (fun s => timerWheel s = timerWheel st /\
                               currentTick s = currentTick st));
    [|split; reflexivity].
  intros s a Hs. case_bool_decide; exact Hs.
Qed.

Lemma processTimerWheel_tick st now :
  currentTick (processTimerWheel st now) = (currentTick st + 1) `rem` 3600.
Proof.
  unfold processTimerWheel. cbv zeta. cbn [timerWheel].
  destruct (timerWheel st !! _) as [notices|]; [|reflexivity].
  cbn [currentTick]. exact (proj2 (activations_keep_wheel now notices _)).
Qed.

Lemma processTimerWheel_slot st now k :
  k <> (currentTick st + 1) `rem` 3600 ->
  timerWheel (processTimerWheel st now) !! k = timerWheel st !! k.
Proof.
  intros Hk. unfold processTimerWheel. cbv zeta. cbn [timerWheel].
  destruct (timerWheel st !! _) as [notices|]; [|reflexivity].
  cbn [timerWheel]. rewrite lookup_delete_ne by congruence.
  f_equal. exact (proj1 (activations_keep_wheel now notices _)).
Qed.

Definition tickInRange (st : Sched) : Prop := 0 <= currentTick st < 3600.

Lemma schedCall_tickInRange st c :
  tickInRange st -> tickInRange (schedCall st c).
Proof.
  intros H. destruct c as [n now| |n now|now|now|t id s now|a b stamp|now];
    cbn [schedCall].
  - exact H.
  - exact H.
  - unfold preemptWithEmergency. case_bool_decide; exact H.
  - unfold tickInRange in *. rewrite processTimerWheel_tick.
    pose proof (Z.rem_bound_pos (currentTick st + 1) 3600). lia.
  - unfold processScheduledNotices.
    apply (foldl_keeps (fun s => tickInRange s)); [|exact H].
    intros s a Hs. exact Hs.
  - unfold updateDeliveryStatus.
    destruct (deliveryCheckpoints st !! t); exact H.
  - exact H.
  - exact H.
Qed.

Lemma schedAfter_tickInRange calls : tickInRange (schedAfter calls).
Proof.
  apply (schedAfter_ind tickInRange); [|apply schedCall_tickInRange].
  unfold tickInRange. cbn. lia.
Qed.

(** X12.  The wheel never reads a slot with a negative number: on every
    scheduler reached by calls a tick leaves such a slot as it is.
    ([addToTimingWheel] does fill such slots: the remainder takes the sign
    of [currentTick + secondsUntilVisible], as for the notice [overdue]
    below.) *)
Theorem wheel_never_reads_negative_slot calls now k :
  k < 0 ->
  timerWheel (processTimerWheel (schedAfter calls) now) !! k
  = timerWheel (schedAfter calls) !! k.
Proof.
  intros Hk. apply processTimerWheel_slot.
  pose proof (schedAfter_tickInRange calls) as Hr. unfold tickInRange in Hr.
  pose proof (Z.rem_bound_pos (currentTick (schedAfter calls) + 1) 3600).
  lia.
Qed.

(** A notice that has been visible for five seconds when it is scheduled
    on a new scheduler. *)
Definition overdue : ScheduledNotice :=
  {| noticeId := "overdue"; title := "Fire drill"; content := "";
     priority := HIGH; visibleFrom := 0; visibleUntil := 100000;
     targetAudience := ["u1"]; channels := ["web"]; createdAt := 0;
     retryCount := 0; maxRetries := 3 |}.

Lemma wheel_never_reads_negative_slot_witness :
  -5 < 0 /\
  timerWheel (processTimerWheel (schedAfter [DoSchedule overdue 5000]) 6000)
    !! (-5)
  = timerWheel (schedAfter [DoSchedule overdue 5000]) !! (-5) /\
  timerWheel (schedAfter [DoSchedule overdue 5000]) !! (-5) = Some [overdue].
Proof.
  split; [lia|]. split.
  - apply (wheel_never_reads_negative_slot [DoSchedule overdue 5000] 6000 (-5)).
    lia.
  - vm_compute. reflexivity.
Defined.

(** *** Blackout periods *)

(** X13.  [isBlackoutPeriod] answers true exactly when one of the
    intervals that [findOverlappingNotices] returns for the same period is
    a blackout. *)
Theorem isBlackoutPeriod_iff_overlapping st start end_ :
  isBlackoutPeriod st start end_ = true <->
  exists interval,
    interval ∈ findOverlappingNotices st start end_ /\
    isBlackout interval = true.
Proof.
  unfold isBlackoutPeriod, findOverlappingNotices. rewrite existsb_exists.
  split.
  - intros (i & Hin & Hb). exists i.
    apply andb_prop in Hb as [Hb H2]. apply andb_prop in Hb as [Hb H1].
    apply bool_decide_eq_true in H1, H2.
    split; [|exact Hb]. apply list_elem_of_filter. split.
    + split; [exact H1 | exact H2].
    + apply list_elem_of_In. exact Hin.
  - intros (i & Hin & Hb). exists i.
    apply list_elem_of_filter in Hin as [[H1 H2] Hin].
    split; [apply list_elem_of_In; exact Hin|].
    rewrite Hb. cbn [andb]. apply andb_true_intro.
    split; apply bool_decide_eq_true; assumption.
Qed.

(** *** The periodic scan *)

Lemma NoDup_fmap_eq {A B} (f : A -> B) (l : list A) x y :
  NoDup (f <$> l) -> x ∈ l -> y ∈ l -> f x = f y -> x = y.
Proof.
  induction l as [|a l IH]; intros Hnd Hx Hy Hf.
  - by apply elem_of_nil in Hx.
  - rewrite fmap_cons in Hnd. apply NoDup_cons in Hnd as [Ha Hnd].
    apply elem_of_cons in Hx as [->|Hx]; apply elem_of_cons in Hy as [->|Hy].
    + reflexivity.
    + exfalso. apply Ha. rewrite Hf. by apply list_elem_of_fmap_2.
    + exfalso. apply Ha. rewrite <- Hf. by apply list_elem_of_fmap_2.
    + by apply IH.
Qed.

(** X14.  On a queue whose entries have pairwise distinct ids the scan at
    [now] leaves in the queue exactly the entries whose window does not
    contain [now], and a second scan at the same time changes nothing. *)
Theorem scan_leaves_the_rest st now :
  NoDup (noticeId <$> dispatchQueue st) ->
  (forall m,
     m ∈ dispatchQueue (processScheduledNotices st now) <->
     m ∈ dispatchQueue st /\
     ~ (visibleFrom m <= now /\ now < visibleUntil m)) /\
  processScheduledNotices (processScheduledNotices st now) now
  = processScheduledNotices st now.
Proof.
  intros Hq.
  assert (Hsub : forall n, n ∈ toActivate (dispatchQueue st) now ->
                           n ∈ dispatchQueue st).
  { intros n Hn. unfold toActivate in Hn.
    by apply list_elem_of_filter in Hn as [_ Hn]. }
  assert (Hrest : forall m,
            m ∈ dispatchQueue (processScheduledNotices st now) <->
            m ∈ dispatchQueue st /\
            ~ (visibleFrom m <= now /\ now < visibleUntil m)).
  { intros m. rewrite processScheduledNotices_fold.
    destruct (scan_fold now (toActivate (dispatchQueue st) now) st)
      as (H1 & _ & _).
    - exact Hq.
    - eapply sublist_NoDup; [exact Hq|].
      apply fmap_sublist, sublist_filter.
    - exact Hsub.
    - rewrite H1. split.
      + intros [Hm Hid]. split; [exact Hm|]. intros Hw. apply Hid.
        apply list_elem_of_fmap_2. unfold toActivate.
        apply list_elem_of_filter. split; [exact Hw | exact Hm].
      + intros [Hm Hw]. split; [exact Hm|]. intros Hid.
        apply list_elem_of_fmap in Hid as (n & Hn & Hin).
        assert (m = n) as ->.
        { apply (NoDup_fmap_eq noticeId (dispatchQueue st)); auto. }
        unfold toActivate in Hin.
        apply list_elem_of_filter in Hin as [Hwn _]. exact (Hw Hwn). }
  split; [exact Hrest|].
  rewrite (processScheduledNotices_fold (processScheduledNotices st now)).
  destruct (toActivate (dispatchQueue (processScheduledNotices st now)) now)
    as [|m l] eqn:E; [reflexivity|].
  exfalso.
  assert (Hm : m ∈ toActivate
                     (dispatchQueue (processScheduledNotices st now)) now)
    by (rewrite E; left).
  unfold toActivate in Hm. apply list_elem_of_filter in Hm as [Hw Hm].
  apply Hrest in Hm as [_ Hnw]. exact (Hnw Hw).
Qed.

Lemma scan_leaves_the_rest_witness :
  (forall m,
     m ∈ dispatchQueue
           (processScheduledNotices
              (schedAfter [DoSchedule overdue 5000; DoSchedule alarm 5000])
              5000) <->
     m ∈ dispatchQueue
           (schedAfter [DoSchedule overdue 5000; DoSchedule alarm 5000]) /\
     ~ (visibleFrom m <= 5000 /\ 5000 < visibleUntil m)) /\
  processScheduledNotices
    (processScheduledNotices
       (schedAfter [DoSchedule overdue 5000; DoSchedule alarm 5000]) 5000)
    5000
  = processScheduledNotices
      (schedAfter [DoSchedule overdue 5000; DoSchedule alarm 5000]) 5000.
Proof.
  apply (scan_leaves_the_rest
           (schedAfter [DoSchedule overdue 5000; DoSchedule alarm 5000]) 5000).
  vm_compute. repeat constructor; [|apply not_elem_of_nil].
  intros H. apply elem_of_cons in H as [H|H]; [discriminate H|].
  by apply elem_of_nil in H.
Defined.

(** *** The scan and the order of the queue *)

(** A notice of normal priority with the given [visibleFrom] and
    [visibleUntil]; its id is [name]. *)
Definition timed (name : string) (vf vu : Z) : ScheduledNotice :=
  {| noticeId := name; title := "Notice"; content := "";
     priority := NORMAL; visibleFrom := vf; visibleUntil := vu;
     targetAudience := []; channels := []; createdAt := 0;
     retryCount := 0; maxRetries := 3 |}.

(** [removeFromQueue] moves the last entry into the place of the removed
    one and sifts it down only.  When the last entry is smaller than the
    parent of that place the heap order is lost: after the scan below has
    activated and removed the notice of key 21, [getNextNotice] returns
    the notice of key 20 before the one of key 13. *)
Remark scan_breaks_drain_order :
  let st := schedAfter
              [DoSchedule (timed "a" 1 100) 0; DoSchedule (timed "b" 20 100) 0;
               DoSchedule (timed "c" 10 100) 0; DoSchedule (timed "d" 21 1000) 0;
               DoSchedule (timed "e" 22 100) 0; DoSchedule (timed "f" 11 100) 0;
               DoSchedule (timed "g" 12 100) 0; DoSchedule (timed "h" 23 100) 0;
               DoSchedule (timed "i" 24 100) 0; DoSchedule (timed "j" 25 100) 0;
               DoSchedule (timed "k" 26 100) 0; DoSchedule (timed "l" 13 100) 0;
               DoScan 500] in
  is_Some (activeNotices st !! "d") /\
  visibleFrom <$> drainAll (dispatchQueue st)
    = [1; 10; 11; 12; 20; 13; 22; 23; 24; 25; 26].
Proof. split; [vm_compute; eauto | vm_compute; reflexivity]. Qed.

End SchedulerCallFacts.

(** ** The user registry under arbitrary calls *)

Section TargetingRegistryFacts.
Import Targeting.
Variable hashAt : nat -> string -> nat.

(** The service after a list of [registerUser] and [markNoticeSeen] calls
    on a new one. *)
Definition serviceAfter (calls : list Call) : Service :=
  performAll hashAt constructor calls.

Lemma serviceAfter_snoc calls c :
  serviceAfter (calls ++ [c]) = perform hashAt (serviceAfter calls) c.
Proof. unfold serviceAfter, performAll. rewrite foldl_app. reflexivity. Qed.

Lemma serviceAfter_ind (P : Service -> Prop) :
  P constructor ->
  (forall sv c, P sv -> P (perform hashAt sv c)) ->
  forall calls, P (serviceAfter calls).
Proof.
  intros H0 Hstep calls.
  induction calls as [|c calls IH] using rev_ind; [exact H0|].
  rewrite serviceAfter_snoc. apply Hstep, IH.
Qed.

(** The two cases of [registerUser]. *)
Lemma registerUser_known sv u n :
  userIdToNumber sv !! userId u = Some n ->
  registerUser sv u =
    {| userAttributes := <[userId u := u]> (userAttributes sv);
       invertedIndex :=
         foldl (fun idx tag => indexAdd idx tag (userId u))
               (invertedIndex sv) (tags u);
       departmentBitmaps := bitmapAdd (departmentBitmaps sv) (department u) n;
       roleBitmaps := bitmapAdd (roleBitmaps sv) (role u) n;
       locationBitmaps := bitmapAdd (locationBitmaps sv) (location u) n;
       seenNoticesBloom := seenNoticesBloom sv;
       userIdToNumber := userIdToNumber sv;
       numberToUserId := numberToUserId sv;
       nextUserId := nextUserId sv |}.
Proof.
  intros E. unfold registerUser. rewrite E. cbv zeta. rewrite E. reflexivity.
Qed.

Lemma registerUser_new sv u :
  userIdToNumber sv !! userId u = None ->
  registerUser sv u =
    {| userAttributes := <[userId u := u]> (userAttributes sv);
       invertedIndex :=
         foldl (fun idx tag => indexAdd idx tag (userId u))
               (invertedIndex sv) (tags u);
       departmentBitmaps :=
         bitmapAdd (departmentBitmaps sv) (department u) (nextUserId sv);
       roleBitmaps := bitmapAdd (roleBitmaps sv) (role u) (nextUserId sv);
       locationBitmaps :=
         bitmapAdd (locationBitmaps sv) (location u) (nextUserId sv);
       seenNoticesBloom := seenNoticesBloom sv;
       userIdToNumber := <[userId u := nextUserId sv]> (userIdToNumber sv);
       numberToUserId := <[nextUserId sv := userId u]> (numberToUserId sv);
       nextUserId := S (nextUserId sv) |}.
Proof.
  intros E. unfold registerUser. rewrite E. cbv zeta.
  rewrite lookup_insert_eq. reflexivity.
Qed.

(** The registry: the two id maps are inverse of each other, the numbers
    given out are those from 1 up to [nextUserId], and a user has
    attributes exactly when it has a number. *)
Definition registryOk (sv : Service) : Prop :=
  (1 <= nextUserId sv)%nat /\
  (forall u n, userIdToNumber sv !! u = Some n <->
               numberToUserId sv !! n = Some u) /\
  (forall n, is_Some (numberToUserId sv !! n) <->
             (1 <= n < nextUserId sv)%nat) /\
  (forall u, is_Some (userAttributes sv !! u) <->
             is_Some (userIdToNumber sv !! u)).

Lemma registerUser_registryOk sv u :
  registryOk sv -> registryOk (registerUser sv u).
Proof.
  intros (Hone & Hinv & Hrange & Hattr).
  destruct (userIdToNumber sv !! userId u) as [n|] eqn:E.
  - rewrite (registerUser_known _ _ _ E).
    split; [exact Hone|]. split; [exact Hinv|]. split; [exact Hrange|].
    intros x. cbn [userAttributes userIdToNumber].
    destruct (decide (x = userId u)) as [->|Hne].
    + rewrite lookup_insert_eq, E. split; eauto.
    + rewrite lookup_insert_ne by congruence. apply Hattr.
  - rewrite (registerUser_new _ _ E).
    split; [cbn; lia|]. split; [|split].
    + intros x n. cbn [userIdToNumber numberToUserId].
      destruct (decide (x = userId u)) as [->|Hx];
        destruct (decide (n = nextUserId sv)) as [->|Hn].
      * rewrite !lookup_insert_eq. split; reflexivity.
      * rewrite lookup_insert_eq, lookup_insert_ne by congruence. split.
        -- intros [= H]. congruence.
        -- intros H. apply Hinv in H. congruence.
      * rewrite lookup_insert_eq, lookup_insert_ne by congruence. split.
        -- intros H. apply Hinv in H.
           assert (is_Some (numberToUserId sv !! nextUserId sv)) as Hs
             by eauto.
           apply Hrange in Hs. lia.
        -- intros [= H]. congruence.
      * rewrite !lookup_insert_ne by congruence. apply Hinv.
    + intros n. cbn [numberToUserId nextUserId].
      destruct (decide (n = nextUserId sv)) as [->|Hn].
      * rewrite lookup_insert_eq. split; [intros _; lia | eauto].
      * rewrite lookup_insert_ne by congruence. rewrite Hrange. lia.
    + intros x. cbn [userAttributes userIdToNumber].
      destruct (decide (x = userId u)) as [->|Hne].
      * rewrite !lookup_insert_eq. split; eauto.
      * rewrite !lookup_insert_ne by congruence. apply Hattr.
Qed.

Lemma perform_registryOk sv c :
  registryOk sv -> registryOk (perform hashAt sv c).
Proof.
  destruct c as [u|uid nid]; cbn [perform].
  - apply registerUser_registryOk.
  - intros H. exact H.
Qed.

Lemma serviceAfter_registryOk calls : registryOk (serviceAfter calls).
Proof.
  apply (serviceAfter_ind registryOk); [|apply perform_registryOk].
  split; [cbn; lia|]. split; [|split].
  - intros u n. cbn. rewrite !lookup_empty. split; intros H; discriminate H.
  - intros n. cbn. rewrite lookup_empty. split.
    + intros [x H]. discriminate H.
    + lia.
  - intros u. cbn. rewrite !lookup_empty. split; intros [x H]; discriminate H.
Qed.

(** The users registered by a list of calls. *)
Definition registeredIn (calls : list Call) (uid : string) : Prop :=
  exists u, CallRegister u ∈ calls /\ userId u = uid.

Lemma registerUser_attributes sv u x :
  userAttributes (registerUser sv u) !! x
  = if decide (x = userId u) then Some u else userAttributes sv !! x.
Proof.
  destruct (userIdToNumber sv !! userId u) as [n|] eqn:E.
  - rewrite (registerUser_known _ _ _ E). cbn [userAttributes].
    case_decide as Hx; [subst x; apply lookup_insert_eq|].
    apply lookup_insert_ne. congruence.
  - rewrite (registerUser_new _ _ E). cbn [userAttributes].
    case_decide as Hx; [subst x; apply lookup_insert_eq|].
    apply lookup_insert_ne. congruence.
Qed.

Lemma serviceAfter_attributes calls uid :
  is_Some (userAttributes (serviceAfter calls) !! uid) <->
  registeredIn calls uid.
Proof.
  induction calls as [|c calls IH] using rev_ind.
  - cbn. rewrite lookup_empty. split.
    + intros [x H]. discriminate H.
    + intros (u & H & _). by apply elem_of_nil in H.
  - rewrite serviceAfter_snoc. destruct c as [u|a b]; cbn [perform].
    + rewrite registerUser_attributes. case_decide as Hx.
      * split; [|eauto]. intros _. exists u. split; [|done].
        apply elem_of_app. right. left.
      * rewrite IH. split.
        -- intros (v & Hv & Hid). exists v. split; [|exact Hid].
           apply elem_of_app. left. exact Hv.
        -- intros (v & Hv & Hid). apply elem_of_app in Hv as [Hv|Hv].
           ++ exists v. split; [exact Hv | exact Hid].
           ++ apply list_elem_of_singleton in Hv. injection Hv as ->.
              congruence.
    + cbn [markNoticeSeen userAttributes]. rewrite IH. split.
      * intros (v & Hv & Hid). exists v. split; [|exact Hid].
        apply elem_of_app. left. exact Hv.
      * intros (v & Hv & Hid). apply elem_of_app in Hv as [Hv|Hv].
        -- exists v. split; [exact Hv | exact Hid].
        -- apply list_elem_of_singleton in Hv. discriminate Hv.
Qed.


(** *** What [findEligibleUsers] returns *)

(** The set of the users that carry one of the tags, as the tag step of
    [findEligibleUsers] builds it. *)
Definition tagEligible (sv : Service) (tagList : list string) : gset string :=
  foldl (fun acc tag => match invertedIndex sv !! tag with
                        | Some users => acc ∪ users
                        | None => acc
                        end) ∅ tagList.

Lemma collect_foldl (m : gmap nat string) (keep : string -> bool)
    (l : list nat) : forall acc : list string,
  foldl (fun results numericId =>
           match m !! numericId with
           | Some uid => if keep uid then (results ++ [uid])%list else results
           | None => results
           end) acc l
  = (acc ++ omap (fun numericId =>
                    match m !! numericId with
                    | Some uid => if keep uid then Some uid else None
                    | None => None
                    end) l)%list.
Proof.
  induction l as [|n l IH]; intros acc.
  - cbn. by rewrite app_nil_r.
  - cbn [foldl]. rewrite IH. cbn [omap list_omap].
    destruct (m !! n) as [uid|]; [destruct (keep uid)|]; try reflexivity.
    by rewrite <- app_assoc.
Qed.

(** Whether the conversion step of [findEligibleUsers] keeps a user id. *)
Definition keeps (sv : Service) (rule : AudienceRule) (uid : string) : bool :=
  if nonEmpty (r_tags rule)
  then truthy uid && bool_decide (uid ∈ tagEligible sv (r_tags rule))
  else truthy uid.

Lemma findEligibleUsers_omap sv rule :
  findEligibleUsers sv rule
  = omap (fun numericId =>
            match numberToUserId sv !! numericId with
            | Some uid => if keeps sv rule uid then Some uid else None
            | None => None
            end) (bitmap_forEach (eligibleBitmap sv rule)).
Proof.
  unfold findEligibleUsers, keeps. cbv zeta.
  destruct (nonEmpty (r_tags rule)).
  - exact (collect_foldl (numberToUserId sv)
             (fun uid => truthy uid
                         && bool_decide (uid ∈ tagEligible sv (r_tags rule)))
             _ []).
  - exact (collect_foldl (numberToUserId sv) truthy _ []).
Qed.

Lemma bitmap_forEach_elem (b : Bitmap) n : n ∈ bitmap_forEach b <-> n ∈ b.
Proof.
  unfold bitmap_forEach. rewrite merge_sort_Permutation.
  apply elem_of_elements.
Qed.

Lemma bitmap_forEach_NoDup (b : Bitmap) : NoDup (bitmap_forEach b).
Proof.
  unfold bitmap_forEach. rewrite merge_sort_Permutation.
  apply NoDup_elements.
Qed.

Lemma truthy_true uid : truthy uid = true <-> uid <> "".
Proof.
  unfold truthy. rewrite negb_true_iff, bool_decide_eq_false. reflexivity.
Qed.

Lemma nonEmpty_false {A} (l : list A) : nonEmpty l = false <-> l = [].
Proof.
  unfold nonEmpty. rewrite negb_false_iff, bool_decide_eq_true.
  destruct l; cbn; split; intros H; done.
Qed.

Lemma findEligibleUsers_elem sv rule uid :
  uid ∈ findEligibleUsers sv rule <->
  exists n, n ∈ eligibleBitmap sv rule /\
            numberToUserId sv !! n = Some uid /\
            keeps sv rule uid = true.
Proof.
  rewrite findEligibleUsers_omap, list_elem_of_omap. split.
  - intros (n & Hn & Hf). exists n. apply bitmap_forEach_elem in Hn.
    destruct (numberToUserId sv !! n) as [x|]; [|discriminate Hf].
    destruct (keeps sv rule x) eqn:Hk; [|discriminate Hf].
    injection Hf as ->. auto.
  - intros (n & Hn & Hid & Hk). exists n.
    split; [by apply bitmap_forEach_elem|]. by rewrite Hid, Hk.
Qed.

Lemma NoDup_omap_inj {A B} (f : A -> option B) (l : list A) :
  (forall x y z, f x = Some z -> f y = Some z -> x = y) ->
  NoDup l -> NoDup (omap f l).
Proof.
  intros Hinj. induction 1 as [|x l Hx Hl IH]; [constructor|].
  cbn [omap list_omap]. destruct (f x) as [z|] eqn:E; [|exact IH].
  constructor; [|exact IH].
  intros Hin. apply list_elem_of_omap in Hin as (y & Hy & Hfy).
  by rewrite (Hinj x y z E Hfy) in Hx.
Qed.

Lemma findEligibleUsers_NoDup sv rule :
  registryOk sv -> NoDup (findEligibleUsers sv rule).
Proof.
  intros (_ & Hinv & _ & _). rewrite findEligibleUsers_omap.
  apply NoDup_omap_inj; [|apply bitmap_forEach_NoDup].
  intros x y z Hx Hy.
  destruct (numberToUserId sv !! x) as [ux|] eqn:Ex; [|discriminate Hx].
  destruct (numberToUserId sv !! y) as [uy|] eqn:Ey; [|discriminate Hy].
  destruct (keeps sv rule ux); [|discriminate Hx].
  destruct (keeps sv rule uy); [|discriminate Hy].
  injection Hx as ->. injection Hy as ->.
  apply Hinv in Ex, Ey. congruence.
Qed.

Lemma keeps_truthy sv rule uid : keeps sv rule uid = true -> uid <> "".
Proof.
  unfold keeps. destruct (nonEmpty (r_tags rule)).
  - intros H. apply andb_prop in H as [H _]. by apply truthy_true.
  - apply truthy_true.
Qed.

(** X16.  Whatever the rule, [findEligibleUsers] returns no user twice,
    and only users that some call registered and whose id is not the
    empty string. *)
Theorem findEligibleUsers_registered (calls : list Call)
    (rule : AudienceRule) :
  NoDup (findEligibleUsers (serviceAfter calls) rule) /\
  Forall (fun uid => registeredIn calls uid /\ uid <> "")
         (findEligibleUsers (serviceAfter calls) rule).
Proof.
  pose proof (serviceAfter_registryOk calls) as Hok.
  split; [by apply findEligibleUsers_NoDup|].
  apply Forall_forall. intros uid Hin.
  apply findEligibleUsers_elem in Hin as (n & _ & Hid & Hk).
  split; [|by eapply keeps_truthy].
  destruct Hok as (_ & Hinv & _ & Hattr).
  apply serviceAfter_attributes, Hattr. apply Hinv in Hid. eauto.
Qed.

Lemma allNumbers_elem (toNum : gmap string nat) n :
  n ∈ (list_to_set ((map_to_list toNum).*2) : Bitmap) <->
  exists u, toNum !! u = Some n.
Proof.
  rewrite elem_of_list_to_set, list_elem_of_fmap. split.
  - intros ([u k] & -> & Hin). apply elem_of_map_to_list in Hin. by exists u.
  - intros (u & Hu). exists (u, n). split; [reflexivity|].
    by apply elem_of_map_to_list.
Qed.

(** X17.  A rule without departments, roles, locations and tags selects
    every user that some call registered, the user with the empty id
    apart. *)
Theorem findEligibleUsers_empty_rule (calls : list Call)
    (id expr : string) (topicList : list string) (uid : string) :
  uid ∈ findEligibleUsers (serviceAfter calls)
          {| r_id := id; expression := expr; topics := topicList;
             departments := []; roles := []; locations := [];
             r_tags := [] |} <->
  registeredIn calls uid /\ uid <> "".
Proof.
  destruct (serviceAfter_registryOk calls) as (_ & Hinv & _ & Hattr).
  rewrite findEligibleUsers_elem.
  change (eligibleBitmap (serviceAfter calls) _)
    with (list_to_set
            ((map_to_list (userIdToNumber (serviceAfter calls))).*2) : Bitmap).
  change (keeps (serviceAfter calls) _ uid) with (truthy uid).
  rewrite <- serviceAfter_attributes, Hattr. split.
  - intros (n & _ & Hid & Hne). split; [|by apply truthy_true].
    apply Hinv in Hid. eauto.
  - intros [[n Hn] Hne]. exists n. split; [|split].
    + apply allNumbers_elem. eauto.
    + by apply Hinv.
    + by apply truthy_true.
Qed.

Lemma tagEligible_elem sv (tagList : list string) uid :
  uid ∈ tagEligible sv tagList <->
  exists tag users, tag ∈ tagList /\ invertedIndex sv !! tag = Some users /\
                    uid ∈ users.
Proof.
  unfold tagEligible.
  assert (Hgen : forall acc : gset string,
            uid ∈ foldl (fun acc tag => match invertedIndex sv !! tag with
                                        | Some users => acc ∪ users
                                        | None => acc
                                        end) acc tagList <->
            uid ∈ acc \/
            exists tag users, tag ∈ tagList /\
                              invertedIndex sv !! tag = Some users /\
                              uid ∈ users).
  { induction tagList as [|t ts IH]; intros acc.
    - cbn [foldl]. split; [auto|].
      intros [H|(tag & users & H & _)]; [exact H|]. by apply elem_of_nil in H.
    - cbn [foldl]. rewrite IH. split.
      + intros [H|(tag & users & Hin & Hl & Hu)].
        * destruct (invertedIndex sv !! t) as [users|] eqn:E; [|by left].
          apply elem_of_union in H as [H|H]; [by left|].
          right. exists t, users. split; [left|]. by split.
        * right. exists tag, users. split; [by right|]. by split.
      + intros [H|(tag & users & Hin & Hl & Hu)].
        * left. destruct (invertedIndex sv !! t); [|exact H].
          apply elem_of_union. by left.
        * apply elem_of_cons in Hin as [->|Hin].
          -- left. rewrite Hl. apply elem_of_union. by right.
          -- right. exists tag, users. by split. }
  rewrite Hgen. split; [|auto].
  intros [H|H]; [|exact H]. by apply elem_of_empty in H.
Qed.

(** X18.  The tags of a rule only filter: a user is returned for a rule
    with tags exactly when it is returned for the same rule without its
    tags and carries one of the tags in the inverted index. *)
Theorem findEligibleUsers_tags_filter sv (rule : AudienceRule)
    (tag : string) (tagList : list string) (uid : string) :
  uid ∈ findEligibleUsers sv
          {| r_id := r_id rule; expression := expression rule;
             topics := topics rule; departments := departments rule;
             roles := roles rule; locations := locations rule;
             r_tags := tag :: tagList |} <->
  uid ∈ findEligibleUsers sv
          {| r_id := r_id rule; expression := expression rule;
             topics := topics rule; departments := departments rule;
             roles := roles rule; locations := locations rule;
             r_tags := [] |} /\
  exists t users, t ∈ tag :: tagList /\ invertedIndex sv !! t = Some users /\
                  uid ∈ users.
Proof.
  rewrite !findEligibleUsers_elem, <- tagEligible_elem.
  set (tagged := {| r_id := r_id rule; r_tags := tag :: tagList |}).
  set (plain := {| r_id := r_id rule; r_tags := [] |}).
  change (eligibleBitmap sv tagged) with (eligibleBitmap sv plain).
  change (keeps sv tagged uid)
    with (truthy uid && bool_decide (uid ∈ tagEligible sv (tag :: tagList))).
  change (keeps sv plain uid) with (truthy uid).
  split.
  - intros (n & Hn & Hid & Hk). apply andb_prop in Hk as [Hk Ht].
    apply bool_decide_eq_true in Ht. split; [|exact Ht].
    exists n. auto.
  - intros [(n & Hn & Hid & Hk) Ht]. exists n. split; [exact Hn|].
    split; [exact Hid|]. rewrite Hk. cbn [andb].
    by apply bool_decide_eq_true.
Qed.

(** *** Rules with one criterion *)

Lemma bitmapAdd_elem (m : gmap string Bitmap) key n0 d n :
  (exists b, bitmapAdd m key n0 !! d = Some b /\ n ∈ b) <->
  (exists b, m !! d = Some b /\ n ∈ b) \/ (d = key /\ n = n0).
Proof.
  unfold bitmapAdd. destruct (m !! key) as [b0|] eqn:E; cbv zeta.
  - rewrite E. destruct (decide (d = key)) as [->|Hd].
    + rewrite lookup_insert_eq, E. split.
      * intros (b & [= <-] & Hn). apply elem_of_union in Hn as [Hn|Hn].
        -- right. apply elem_of_singleton in Hn. auto.
        -- left. eauto.
      * intros [(b & [= <-] & Hn)|[_ ->]]; eexists; (split; [reflexivity|]).
        -- apply elem_of_union. by right.
        -- apply elem_of_union. left. by apply elem_of_singleton.
    + rewrite lookup_insert_ne by congruence. split; [auto|].
      intros [H|[H _]]; [exact H | contradiction].
  - rewrite lookup_insert_eq. destruct (decide (d = key)) as [->|Hd].
    + rewrite lookup_insert_eq, E. split.
      * intros (b & [= <-] & Hn). apply elem_of_union in Hn as [Hn|Hn].
        -- right. apply elem_of_singleton in Hn. auto.
        -- by apply elem_of_empty in Hn.
      * intros [(b & Hb & _)|[_ ->]]; [discriminate Hb|].
        eexists. split; [reflexivity|].
        apply elem_of_union. left. by apply elem_of_singleton.
    + rewrite !lookup_insert_ne by congruence. split; [auto|].
      intros [H|[H _]]; [exact H | contradiction].
Qed.

Lemma unionOf_elem (m : gmap string Bitmap) (values : list string) n :
  n ∈ unionOf m values <->
  exists v b, v ∈ values /\ m !! v = Some b /\ n ∈ b.
Proof.
  unfold unionOf.
  assert (Hgen : forall acc : Bitmap,
            n ∈ foldl (fun acc v => match m !! v with
                                    | Some b => acc ∪ b
                                    | None => acc
                                    end) acc values <->
            n ∈ acc \/ exists v b, v ∈ values /\ m !! v = Some b /\ n ∈ b).
  { induction values as [|t ts IH]; intros acc.
    - cbn [foldl]. split; [auto|].
      intros [H|(v & b & H & _)]; [exact H|]. by apply elem_of_nil in H.
    - cbn [foldl]. rewrite IH. split.
      + intros [H|(v & b & Hin & Hl & Hu)].
        * destruct (m !! t) as [b|] eqn:E; [|by left].
          apply elem_of_union in H as [H|H]; [by left|].
          right. exists t, b. split; [left|]. by split.
        * right. exists v, b. split; [by right|]. by split.
      + intros [H|(v & b & Hin & Hl & Hu)].
        * left. destruct (m !! t); [|exact H].
          apply elem_of_union. by left.
        * apply elem_of_cons in Hin as [->|Hin].
          -- left. rewrite Hl. apply elem_of_union. by right.
          -- right. exists v, b. by split. }
  rewrite Hgen. split; [|auto].
  intros [H|H]; [|exact H]. by apply elem_of_empty in H.
Qed.

Lemma registerUser_number_kept sv u x n :
  userIdToNumber sv !! x = Some n ->
  userIdToNumber (registerUser sv u) !! x = Some n.
Proof.
  intros Hx. destruct (userIdToNumber sv !! userId u) as [k|] eqn:E.
  - rewrite (registerUser_known _ _ _ E). exact Hx.
  - rewrite (registerUser_new _ _ E). cbn [userIdToNumber].
    rewrite lookup_insert_ne by congruence. exact Hx.
Qed.

Lemma registered_has_number calls u :
  CallRegister u ∈ calls ->
  is_Some (userIdToNumber (serviceAfter calls) !! userId u).
Proof.
  intros Hin. destruct (serviceAfter_registryOk calls) as (_ & _ & _ & Hattr).
  apply Hattr, serviceAfter_attributes. by exists u.
Qed.

(** One of the three dimensions of a rule: the attribute it reads and
    the bitmaps that registration fills for it. *)
Section Dimension.
Variable field : UserAttributes -> string.
Variable bitmaps : Service -> gmap string Bitmap.
Hypothesis bitmaps_register : forall sv u n,
  userIdToNumber (registerUser sv u) !! userId u = Some n ->
  bitmaps (registerUser sv u) = bitmapAdd (bitmaps sv) (field u) n.
Hypothesis bitmaps_seen : forall sv uid noticeId,
  bitmaps (markNoticeSeen hashAt sv uid noticeId) = bitmaps sv.
Hypothesis bitmaps_init : bitmaps constructor = ∅.

(** The bitmap of a value holds the numbers of the users that some call
    registered with that value. *)
Lemma dimension_members calls d n :
  (exists b, bitmaps (serviceAfter calls) !! d = Some b /\ n ∈ b) <->
  exists u, CallRegister u ∈ calls /\ field u = d /\
            userIdToNumber (serviceAfter calls) !! userId u = Some n.
Proof.
  induction calls as [|c calls IH] using rev_ind.
  - unfold serviceAfter. cbn [performAll foldl]. rewrite bitmaps_init. split.
    + intros (b & Hb & _). rewrite lookup_empty in Hb. discriminate Hb.
    + intros (u & Hin & _). by apply elem_of_nil in Hin.
  - rewrite serviceAfter_snoc. destruct c as [u|a b]; cbn [perform].
    + destruct (registerUser_assigns (serviceAfter calls) u) as [n0 Hn0].
      rewrite (bitmaps_register _ _ _ Hn0), bitmapAdd_elem, IH. split.
      * intros [(v & Hv & Hf & Hnum)|[-> ->]].
        -- exists v. split; [apply elem_of_app; by left|].
           split; [exact Hf|]. by apply registerUser_number_kept.
        -- exists u. split; [apply elem_of_app; right; left|]. by split.
      * intros (v & Hv & Hf & Hnum). apply elem_of_app in Hv as [Hv|Hv].
        -- left. exists v. split; [exact Hv|]. split; [exact Hf|].
           destruct (registered_has_number _ _ Hv) as [k Hk].
           pose proof (registerUser_number_kept _ u _ _ Hk) as Hk'.
           congruence.
        -- apply list_elem_of_singleton in Hv. injection Hv as ->.
           right. split; [by symmetry|]. congruence.
    + rewrite bitmaps_seen, IH. cbn [markNoticeSeen userIdToNumber]. split.
      * intros (v & Hv & Hrest). exists v.
        split; [apply elem_of_app; by left | exact Hrest].
      * intros (v & Hv & Hrest). apply elem_of_app in Hv as [Hv|Hv].
        -- exists v. by split.
        -- apply list_elem_of_singleton in Hv. discriminate Hv.
Qed.

(** The users whose number is in the union of the bitmaps of the listed
    values. *)
Lemma dimension_union calls (values : list string) uid n :
  numberToUserId (serviceAfter calls) !! n = Some uid ->
  n ∈ unionOf (bitmaps (serviceAfter calls)) values <->
  exists u, CallRegister u ∈ calls /\ userId u = uid /\ field u ∈ values.
Proof.
  intros Hid. destruct (serviceAfter_registryOk calls) as (_ & Hinv & _ & _).
  rewrite unionOf_elem. split.
  - intros (v & b & Hv & Hb & Hn).
    destruct (proj1 (dimension_members calls v n)) as (u & Hu & Hf & Hnum);
      [eauto|].
    exists u. split; [exact Hu|]. split; [|by rewrite Hf].
    apply Hinv in Hnum. congruence.
  - intros (u & Hu & Huid & Hf).
    destruct (proj2 (dimension_members calls (field u) n)) as (b & Hb & Hn).
    + exists u. split; [exact Hu|]. split; [reflexivity|].
      apply Hinv. by rewrite Huid.
    + exists (field u), b. by split.
Qed.
End Dimension.

Lemma registerUser_number sv u n :
  userIdToNumber (registerUser sv u) !! userId u = Some n ->
  registerUser sv u =
    {| userAttributes := <[userId u := u]> (userAttributes sv);
       invertedIndex :=
         foldl (fun idx tag => indexAdd idx tag (userId u))
               (invertedIndex sv) (tags u);
       departmentBitmaps := bitmapAdd (departmentBitmaps sv) (department u) n;
       roleBitmaps := bitmapAdd (roleBitmaps sv) (role u) n;
       locationBitmaps := bitmapAdd (locationBitmaps sv) (location u) n;
       seenNoticesBloom := seenNoticesBloom sv;
       userIdToNumber := userIdToNumber (registerUser sv u);
       numberToUserId := numberToUserId (registerUser sv u);
       nextUserId := nextUserId (registerUser sv u) |}.
Proof.
  destruct (userIdToNumber sv !! userId u) as [k|] eqn:E.
  - rewrite (registerUser_known _ _ _ E). cbn [userIdToNumber].
    rewrite E. intros [= ->]. reflexivity.
  - rewrite (registerUser_new _ _ E). cbn [userIdToNumber].
    rewrite lookup_insert_eq. intros [= <-]. reflexivity.
Qed.

(** X19.  A rule that names departments only (or roles only, or
    locations only) selects the users, the one with the empty id apart,
    that some call registered with one of the named values.  A user
    registered again with another value stays selected by the earlier
    one. *)
Theorem findEligibleUsers_single_criterion (calls : list Call)
    (id expr : string) (topicList : list string)
    (value : string) (values : list string) (uid : string) :
  (uid ∈ findEligibleUsers (serviceAfter calls)
           {| r_id := id; expression := expr; topics := topicList;
              departments := value :: values; roles := []; locations := [];
              r_tags := [] |} <->
   uid <> "" /\
   exists u, CallRegister u ∈ calls /\ userId u = uid /\
             department u ∈ value :: values) /\
  (uid ∈ findEligibleUsers (serviceAfter calls)
           {| r_id := id; expression := expr; topics := topicList;
              departments := []; roles := value :: values; locations := [];
              r_tags := [] |} <->
   uid <> "" /\
   exists u, CallRegister u ∈ calls /\ userId u = uid /\
             role u ∈ value :: values) /\
  (uid ∈ findEligibleUsers (serviceAfter calls)
           {| r_id := id; expression := expr; topics := topicList;
              departments := []; roles := []; locations := value :: values;
              r_tags := [] |} <->
   uid <> "" /\
   exists u, CallRegister u ∈ calls /\ userId u = uid /\
             location u ∈ value :: values).
Proof.
  destruct (serviceAfter_registryOk calls) as (_ & Hinv & _ & Hattr).
  assert (Hnum : forall u, CallRegister u ∈ calls -> userId u = uid ->
                   exists n, numberToUserId (serviceAfter calls) !! n
                             = Some uid).
  { intros u Hu <-. destruct (registered_has_number _ _ Hu) as [n Hn].
    exists n. by apply Hinv. }
  assert (Hdep := dimension_union department departmentBitmaps
                    ltac:(intros sv u n H;
                          by rewrite (registerUser_number sv u n H) at 1)
                    ltac:(reflexivity) ltac:(reflexivity) calls
                    (value :: values) uid).
  assert (Hrol := dimension_union role roleBitmaps
                    ltac:(intros sv u n H;
                          by rewrite (registerUser_number sv u n H) at 1)
                    ltac:(reflexivity) ltac:(reflexivity) calls
                    (value :: values) uid).
  assert (Hloc := dimension_union location locationBitmaps
                    ltac:(intros sv u n H;
                          by rewrite (registerUser_number sv u n H) at 1)
                    ltac:(reflexivity) ltac:(reflexivity) calls
                    (value :: values) uid).
  split; [|split]; rewrite findEligibleUsers_elem.
  - change (eligibleBitmap (serviceAfter calls) _)
      with (unionOf (departmentBitmaps (serviceAfter calls))
                    (value :: values)).
    change (keeps (serviceAfter calls) _ uid) with (truthy uid). split.
    + intros (n & Hn & Hid & Hk). split; [by apply truthy_true|].
      by apply (Hdep n Hid).
    + intros (Hne & u & Hu & Huid & Hf).
      destruct (Hnum u Hu Huid) as [n Hid]. exists n.
      split; [apply (Hdep n Hid); eauto|].
      split; [exact Hid | by apply truthy_true].
  - assert (Hbm : eligibleBitmap (serviceAfter calls)
                    {| r_id := id; expression := expr; topics := topicList;
                       departments := []; roles := value :: values;
                       locations := []; r_tags := [] |}
                  = unionOf (roleBitmaps (serviceAfter calls))
                            (value :: values)).
    { unfold eligibleBitmap. cbn [departments roles locations].
      change (nonEmpty (value :: values)) with true.
      change (nonEmpty (@nil string)) with false. cbn [negb andb].
      rewrite bool_decide_eq_true_2 by apply size_empty. reflexivity. }
    rewrite Hbm.
    change (keeps (serviceAfter calls) _ uid) with (truthy uid). split.
    + intros (n & Hn & Hid & Hk). split; [by apply truthy_true|].
      by apply (Hrol n Hid).
    + intros (Hne & u & Hu & Huid & Hf).
      destruct (Hnum u Hu Huid) as [n Hid]. exists n.
      split; [apply (Hrol n Hid); eauto|].
      split; [exact Hid | by apply truthy_true].
  - assert (Hbm : eligibleBitmap (serviceAfter calls)
                    {| r_id := id; expression := expr; topics := topicList;
                       departments := []; roles := [];
                       locations := value :: values; r_tags := [] |}
                  = unionOf (locationBitmaps (serviceAfter calls))
                            (value :: values)).
    { unfold eligibleBitmap. cbn [departments roles locations].
      change (nonEmpty (value :: values)) with true.
      change (nonEmpty (@nil string)) with false. cbn [negb andb].
      rewrite bool_decide_eq_true_2 by apply size_empty. reflexivity. }
    rewrite Hbm.
    change (keeps (serviceAfter calls) _ uid) with (truthy uid). split.
    + intros (n & Hn & Hid & Hk). split; [by apply truthy_true|].
      by apply (Hloc n Hid).
    + intros (Hne & u & Hu & Huid & Hf).
      destruct (Hnum u Hu Huid) as [n Hid]. exists n.
      split; [apply (Hloc n Hid); eauto|].
      split; [exact Hid | by apply truthy_true].
Qed.

End TargetingRegistryFacts.
